(** * Fixed-point decimals for money: a shallow embedding of the Go package

    The Go type [Decimal] is a pair of an arbitrary-precision coefficient
    ([big.Int]) and an [int32] exponent; the number it denotes is
    [value * 10 ^ exp].  The coefficient is modelled by [Z]; the exponent by
    a [Z] together with the wrap-around of Go's [int32] arithmetic written
    out wherever the source computes on it.  A Go [panic] is an explicit
    outcome of the [result] type. *)

From Stdlib Require Import ZArith List String Ascii Bool Lia.
Import ListNotations.
Local Open Scope Z_scope.

(** ** Machine integers *)

Definition MaxInt32 : Z := 2147483647.
Definition MinInt32 : Z := -2147483648.

(** Conversion to [int32], which is also what every [int32] operation does to
    its mathematical result. *)
Definition int32 (z : Z) : Z := (z + 2147483648) mod 4294967296 - 2147483648.

(** Conversion to [uint32]. *)
Definition uint32 (z : Z) : Z := z mod 4294967296.

Definition in_int32 (z : Z) : Prop := MinInt32 <= z <= MaxInt32.

(** ** Outcomes of functions that may panic *)

Inductive result (A : Type) : Type :=
| Ok (a : A)
| Panic (msg : string).
Arguments Ok {A} a.
Arguments Panic {A} msg.

Definition bind {A B : Type} (r : result A) (k : A -> result B) : result B :=
  match r with
  | Ok a => k a
  | Panic msg => Panic msg
  end.

Notation "x <- r ;; k" := (bind r (fun x => k))
  (at level 61, r at next level, right associativity).
Notation "' p <- r ;; k" := (bind r (fun x => let p := x in k))
  (at level 61, p pattern, r at next level, right associativity).

(** ** Errors *)

Inductive error : Type :=
| ErrInvalidDecimal
| ErrGobVersion.

(** ** Text *)

(** A Go string is a sequence of bytes. *)
Definition gostring : Type := list ascii.

Definition str (s : string) : gostring := list_ascii_of_string s.

Definition decSeparator : gostring := str ".".

Definition allowedDecimalRunes : list ascii := ["+"; "-"; "."]%char.

(** [unicode.IsDigit] on the ASCII range.  A byte above 127 is part of a
    rune outside ASCII (or of an invalid encoding): [ParseDecimal] rejects
    such a rune in its first loop unless it is a Unicode digit, and then
    [SetString] rejects it, with the same error. *)
Definition isDigit (c : ascii) : bool :=
  let n := Z.of_N (N_of_ascii c) in (48 <=? n) && (n <=? 57).

Definition digitValue (c : ascii) : Z := Z.of_N (N_of_ascii c) - 48.

Definition digitChar (n : Z) : ascii := ascii_of_N (Z.to_N (n + 48)).

(** [strings.Split] with a one-byte separator. *)
Fixpoint Split (s : gostring) (sep : ascii) : list gostring :=
  match s with
  | [] => [[]]
  | c :: s' =>
      if Ascii.eqb c sep then [] :: Split s' sep
      else match Split s' sep with
           | p :: ps => (c :: p) :: ps
           | [] => [[c]]
           end
  end.

(** [strings.Repeat]. *)
Definition Repeat (c : ascii) (n : Z) : gostring := repeat c (Z.to_nat n).

(** Positional notation: the digits of a number, most significant first,
    and the number that a sequence of digits writes. *)
Fixpoint toDigits (base : Z) (fuel : nat) (n : Z) (acc : list Z) : list Z :=
  match fuel with
  | O => acc
  | S fuel' =>
      if n =? 0 then acc
      else toDigits base fuel' (n / base) (n mod base :: acc)
  end.

Definition digitsOf (base : Z) (n : Z) : list Z :=
  toDigits base (S (Z.to_nat (Z.log2 n))) n [].

Definition ofDigits (base : Z) (acc : Z) (l : list Z) : Z :=
  fold_left (fun a d => base * a + d) l acc.

(** ** The operations of [math/big] that the package calls *)

Module big.

(** [Int.Sign]. *)
Definition Sign (x : Z) : Z := Z.sgn x.

(** [Int.Cmp]. *)
Definition Cmp (x y : Z) : Z :=
  match x ?= y with
  | Lt => -1
  | Eq => 0
  | Gt => 1
  end.

(** [Int.Exp] with a nil modulus: [x ** y], and 1 when [y <= 0]. *)
Definition Exp (x y : Z) : Z := if y <=? 0 then 1 else x ^ y.

(** [Int.Quo] and [Int.Rem]: truncated division. *)
Definition Quo (x y : Z) : Z := Z.quot x y.
Definition Rem (x y : Z) : Z := Z.rem x y.

(** [Int.Div], [Int.Mod] and [Int.DivMod]: Euclidean division, the modulus
    is never negative. *)
Definition Mod (x y : Z) : Z := x mod (Z.abs y).
Definition Div (x y : Z) : Z := Z.sgn y * (x / Z.abs y).
Definition DivMod (x y : Z) : Z * Z := (Div x y, Mod x y).

(** [Int.Lsh]. *)
Definition Lsh (x : Z) (n : Z) : Z := Z.shiftl x n.

(** [Int.String]: decimal digits, with a minus sign for a negative
    number. *)
Definition utoa (n : Z) : gostring :=
  if n =? 0 then str "0" else map digitChar (digitsOf 10 n).

Definition String (x : Z) : gostring :=
  if x <? 0 then "-"%char :: utoa (- x) else utoa x.

(** [Int.SetString] in base 10: an optional sign and at least one digit,
    nothing else. *)
Fixpoint scanDigits (acc : Z) (s : gostring) : option Z :=
  match s with
  | [] => Some acc
  | c :: s' =>
      if isDigit c then scanDigits (10 * acc + digitValue c) s' else None
  end.

Definition SetString (s : gostring) : option Z :=
  let '(neg, body) :=
    match s with
    | c :: r =>
        if Ascii.eqb c "+" then (false, r)
        else if Ascii.eqb c "-" then (true, r)
        else (false, s)
    | [] => (false, s)
    end in
  match body with
  | [] => None
  | _ :: _ =>
      match scanDigits 0 body with
      | Some n => Some (if neg then - n else n)
      | None => None
      end
  end.

(** [Int.GobEncode]: a byte holding the version (1) and the sign bit,
    then the magnitude in big-endian bytes without leading zeros. *)
Definition intGobVersion : Z := 1.

Definition GobEncode (x : Z) : list Z * option error :=
  let b := Z.shiftl intGobVersion 1 in
  let b := if x <? 0 then Z.lor b 1 else b in
  (b :: digitsOf 256 (Z.abs x), None).

(** [Int.GobDecode]: the new value of the receiver and the error. *)
Definition GobDecode (buf : list Z) : Z * option error :=
  match buf with
  | [] => (0, None)
  | b :: rest =>
      if negb (Z.shiftr b 1 =? intGobVersion)
      then (0, Some ErrGobVersion)
      else
        let neg := negb (Z.land b 1 =? 0) in
        let abs := ofDigits 256 0 rest in
        (if neg then - abs else abs, None)
  end.

End big.

(** ** The decimal type *)

Record Decimal : Type := mkDecimal { value : Z; exp : Z }.

Definition SignPositive : Z := 1.
Definition SignNeutral : Z := 0.
Definition SignNegative : Z := -1.

Definition divisionPrecision : Z := 16.

Definition buildDecimal (v : Z) (e : Z) : Decimal := mkDecimal v e.

Definition zero : Decimal := buildDecimal 0 1.

(** The zero value of the Go struct, [Decimal{}]. *)
Definition zeroValue : Decimal := mkDecimal 0 0.

Definition min (x y : Z) : Z := if x >=? y then y else x.

(** The exponents of a well-formed decimal fit in an [int32]. *)
Definition wf (d : Decimal) : Prop := in_int32 (exp d).

(** The number a decimal denotes, scaled by [10 ^ k] so that it is an
    integer; meaningful when [0 <= exp d + k]. *)
Definition scaled (k : Z) (d : Decimal) : Z := value d * 10 ^ (exp d + k).

(** ** Core operations *)

Definition rescale (d : Decimal) (e : Z) : Decimal :=
  let diff := Z.abs (e - exp d) in
  let expScale := big.Exp 10 diff in
  if e >? exp d then mkDecimal (big.Quo (value d) expScale) e
  else if e <? exp d then mkDecimal (value d * expScale) e
  else mkDecimal (value d) e.

Definition Abs (d : Decimal) : Decimal := mkDecimal (Z.abs (value d)) (exp d).

Definition Neg (d : Decimal) : Decimal := mkDecimal (- value d) (exp d).

Definition Add (d d2 : Decimal) : Decimal :=
  let baseScale := min (exp d) (exp d2) in
  let rd := rescale d baseScale in
  let rd2 := rescale d2 baseScale in
  mkDecimal (value rd + value rd2) baseScale.

Definition Sub (d d2 : Decimal) : Decimal :=
  let baseScale := min (exp d) (exp d2) in
  let rd := rescale d baseScale in
  let rd2 := rescale d2 baseScale in
  mkDecimal (value rd - value rd2) baseScale.

(** The message of the panic in the source also holds the offending sum. *)
Definition Mul (d d2 : Decimal) : result Decimal :=
  let expInt64 := exp d + exp d2 in
  if (expInt64 >? MaxInt32) || (expInt64 <? MinInt32)
  then Panic "exponent overflows an int32!"
  else Ok (mkDecimal (value d * value d2) (int32 expInt64)).

Definition Cmp (d d2 : Decimal) : Z :=
  if exp d =? exp d2 then big.Cmp (value d) (value d2)
  else
    let baseExp := min (exp d) (exp d2) in
    let '(rd, rd2) :=
      if negb (exp d =? baseExp) then (rescale d baseExp, d2)
      else if negb (exp d2 =? baseExp) then (d, rescale d2 baseExp)
      else (zeroValue, zeroValue) in
    big.Cmp (value rd) (value rd2).

Definition Equal (d d2 : Decimal) : bool := Cmp d d2 =? 0.

Definition Sign (d : Decimal) : Z := big.Sign (value d).

Definition Exponent (d : Decimal) : Z := exp d.

Definition Truncate (d : Decimal) (precision : Z) : Decimal :=
  if (precision >=? 0) && (int32 (- precision) >? exp d)
  then rescale d (int32 (- precision))
  else d.

(** [quoRem]: the quotient at [precision] fractional digits and the
    remainder.  The difference of the exponents is computed on [int32]
    before it is widened. *)
Definition quoRem (d d2 : Decimal) (precision : Z) : result (Decimal * Decimal) :=
  if big.Sign (value d2) =? SignNeutral then Panic "decimal division by 0"
  else
    let scale := int32 (- precision) in
    let e := int32 (int32 (exp d - exp d2) - scale) in
    if (e >? MaxInt32) || (e <? MinInt32) then Panic "overflow in decimal QuoRem"
    else
      let '(aa, bb, scalerest) :=
        if e <? 0
        then (value d, value d2 * big.Exp 10 (- e), exp d)
        else (value d * big.Exp 10 e, value d2, int32 (scale + exp d2)) in
      Ok (mkDecimal (big.Quo aa bb) scale, mkDecimal (big.Rem aa bb) scalerest).

Definition divRound (d d2 : Decimal) (precision : Z) : result Decimal :=
  ' (q, r) <- quoRem d d2 precision ;;
  let rv2 := big.Lsh (Z.abs (value r)) 1 in
  let r2 := mkDecimal rv2 (int32 (exp r + precision)) in
  let c := Cmp r2 (Abs d2) in
  if c <? 0 then Ok q
  else if big.Sign (value d) * big.Sign (value d2) <? SignNegative
  then Ok (Sub q (buildDecimal 1 (int32 (- precision))))
  else Ok (Add q (buildDecimal 1 (int32 (- precision)))).

Definition Div (d d2 : Decimal) : result Decimal :=
  divRound d d2 (int32 divisionPrecision).

Definition Mod (d d2 : Decimal) : result Decimal :=
  q <- Div d d2 ;;
  let quo := Truncate q 0 in
  m <- Mul d2 quo ;;
  Ok (Sub d m).

(** ** Rounding *)

Definition Round (d : Decimal) (places : Z) : Decimal :=
  let ret := rescale d (int32 (int32 (- places) - 1)) in
  let v := if big.Sign (value ret) =? SignNegative
           then value ret - 5 else value ret + 5 in
  let '(q, m) := big.DivMod v 10 in
  let e := int32 (exp ret + 1) in
  if (big.Sign q =? SignNegative) && negb (big.Cmp m 0 =? 0)
  then mkDecimal (q + 1) e
  else mkDecimal q e.

Definition RoundUp (d : Decimal) (precision : Z) : Decimal :=
  if Equal (Round d precision) d then d
  else
    let halfPrecision := buildDecimal 5 (int32 (int32 (- precision) - 1)) in
    Round (Add d halfPrecision) precision.

Definition RoundDown (d : Decimal) (precision : Z) : Decimal :=
  if Equal (Round d precision) d then d
  else
    let halfPrecision := buildDecimal (-5) (int32 (int32 (- precision) - 1)) in
    Round (Add d halfPrecision) precision.

Definition RoundNearest (d unit : Decimal) : result Decimal :=
  let rounded := Round d (int32 (- exp unit)) in
  remainder <- Mod rounded unit ;;
  let '(cmp, unit) :=
    if Sign rounded =? SignNegative then (-1, Neg unit) else (1, unit) in
  half <- Div unit (buildDecimal 2 0) ;;
  if Cmp remainder half =? cmp
  then Ok (Add rounded (Sub unit remainder))
  else Ok (Sub rounded remainder).

Definition Floor (d : Decimal) : Decimal :=
  let e := big.Exp 10 (- exp d) in
  mkDecimal (big.Div (value d) e) 0.

Definition Ceil (d : Decimal) : Decimal :=
  let e := big.Exp 10 (- exp d) in
  let '(z, m) := big.DivMod (value d) e in
  if negb (big.Cmp m 0 =? 0) then mkDecimal (z + 1) 0 else mkDecimal z 0.

(** ** The rounding entry point of the money layer *)

Inductive RoundingMode : Type :=
| RoundDownMode
| RoundUpMode
| RoundToNearest
| OtherMode (name : string).

Definition MoneyRound (x unit : Decimal) (mode : RoundingMode) : result Decimal :=
  let prec := int32 (Exponent unit * -1) in
  match mode with
  | RoundDownMode =>
      let rounded := RoundDown x prec in
      m <- Mod rounded unit ;;
      Ok (Truncate (Sub rounded m) prec)
  | RoundUpMode =>
      let rounded := RoundUp x prec in
      m <- Mod rounded unit ;;
      Ok (Truncate (Add rounded m) prec)
  | RoundToNearest =>
      r <- RoundNearest x unit ;;
      Ok (Truncate r prec)
  | OtherMode _ => Ok zeroValue
  end.

(** ** Parsing and printing *)

Definition parseResult (ints : gostring) (e : Z) : Decimal * option error :=
  match big.SetString ints with
  | None => (zero, Some ErrInvalidDecimal)
  | Some dValue =>
      if (e <? MinInt32) || (e >? MaxInt32)
      then (zero, Some ErrInvalidDecimal)
      else (mkDecimal dValue (int32 e), None)
  end.

Definition allowedRune (c : ascii) : bool :=
  isDigit c || existsb (Ascii.eqb c) allowedDecimalRunes.

Definition ParseDecimal (value : gostring) : Decimal * option error :=
  if negb (forallb allowedRune value) then (zero, Some ErrInvalidDecimal)
  else
    match Split value "."%char with
    | [p0] => parseResult p0 0
    | [p0; p1] => parseResult (p0 ++ p1) (- Z.of_nat (List.length p1))
    | _ => (zero, Some ErrInvalidDecimal)
    end.

(** [roundPrec]: the product is an [int32], the conversion to [uint] is to
    64 bits. *)
Definition roundPrec (d : Decimal) : Z :=
  if exp d <? 0 then int32 (exp d * -1) mod 2 ^ 64 else 0.

Definition String (d : Decimal) : gostring :=
  if exp d >=? 0 then
    let v := value (rescale d 0) in
    let intPart := big.String v in
    let prec := if roundPrec d >? 0 then roundPrec d else 1 in
    intPart ++ decSeparator ++ Repeat "0" prec
  else
    let s := big.String (Z.abs (value d)) in
    let dExpInt := exp d in
    let len := Z.of_nat (List.length s) in
    let '(intPart, fractionalPart) :=
      if len >? - dExpInt
      then (firstn (Z.to_nat (len + dExpInt)) s,
            skipn (Z.to_nat (len + dExpInt)) s)
      else (str "0", Repeat "0" (- dExpInt - len) ++ s) in
    let number :=
      if (0 <? List.length fractionalPart)%nat
      then intPart ++ decSeparator ++ fractionalPart
      else intPart in
    if big.Sign (value d) =? SignNegative then "-"%char :: number else number.

(** ** The binary form *)

(** [binary.BigEndian.PutUint32] and [binary.BigEndian.Uint32]; a byte is a
    number below 256. *)
Definition byte (z : Z) : Z := Z.land z 255.

Definition PutUint32 (v : Z) : list Z :=
  [byte (Z.shiftr v 24); byte (Z.shiftr v 16); byte (Z.shiftr v 8); byte v].

Definition Uint32 (b : list Z) : Z :=
  match b with
  | b0 :: b1 :: b2 :: b3 :: _ =>
      Z.lor (Z.lor (Z.lor b3 (Z.shiftl b2 8)) (Z.shiftl b1 16)) (Z.shiftl b0 24)
  | _ => 0
  end.

Section Binary.

(** The encoding of the coefficient is the one of [math/big]; the two
    functions below take it as a parameter. *)
Variable GobEncode : Z -> list Z * option error.
Variable GobDecode : list Z -> Z * option error.

Definition MarshalBinary (d : Decimal) : list Z * option error :=
  let v1 := PutUint32 (uint32 (exp d)) in
  match GobEncode (value d) with
  | (v2, Some err) => ([], Some err)
  | (v2, None) => (v1 ++ v2, None)
  end.

(** The decimal that the receiver holds afterwards, and the error; slicing
    fewer than four bytes panics. *)
Definition UnmarshalBinary (data : list Z) : result (Decimal * option error) :=
  if (List.length data <? 4)%nat then Panic "slice bounds out of range"
  else
    let e := int32 (Uint32 (firstn 4 data)) in
    let '(v, err) := GobDecode (skipn 4 data) in
    Ok (mkDecimal v e, err).

End Binary.

(** ** Notions used to state the properties *)

(** The rounding that the comment above [divRound] describes: the truncated
    quotient, moved one unit away from zero when twice the remainder
    reaches the divisor. *)
Definition half_away_quot (n m : Z) : Z :=
  let q := Z.quot n m in
  if 2 * Z.abs (Z.rem n m) >=? Z.abs m then q + Z.sgn n * Z.sgn m else q.

(** The last step of [Round]: add or subtract five units of the digit that
    is about to be dropped, then drop it. *)
Definition dropDigit (v : Z) : Z :=
  let v' := if Z.sgn v =? -1 then v - 5 else v + 5 in
  if (Z.sgn (v' / 10) =? -1) && negb (v' mod 10 =? 0)
  then v' / 10 + 1 else v' / 10.

(** What [RoundNearest] makes of the coefficient [A] of the rounded
    argument, for a unit of coefficient [U] at the same exponent. *)
Definition snap (A U : Z) : Z :=
  let R := Z.rem A U in
  if A <? 0
  then if 2 * R <? - U then A + (- U - R) else A - R
  else if 2 * R >? U then A + (U - R) else A - R.


(** The number that a string of decimal digits writes. *)
Definition digitsValue (s : gostring) : Z := ofDigits 10 0 (map digitValue s).

Definition allDigits (s : gostring) : Prop := forallb isDigit s = true.

Inductive optSign : gostring -> bool -> Prop :=
| no_sign : optSign [] false
| plus_sign : optSign ["+"%char] false
| minus_sign : optSign ["-"%char] true.

Definition signed (neg : bool) (n : Z) : Z := if neg then - n else n.

(** An optional sign, digits, and optionally a point and more digits, with
    at least one digit in all; the decimal that such a text writes. *)
Inductive decimalText : gostring -> Decimal -> Prop :=
| text_integer (sgn : gostring) (neg : bool) (ip : gostring) :
    optSign sgn neg -> allDigits ip -> ip <> [] ->
    decimalText (sgn ++ ip) (mkDecimal (signed neg (digitsValue ip)) 0)
| text_fraction (sgn : gostring) (neg : bool) (ip fp : gostring) :
    optSign sgn neg -> allDigits ip -> allDigits fp -> ip ++ fp <> [] ->
    Z.of_nat (List.length fp) <= 2147483648 ->
    decimalText (sgn ++ ip ++ "."%char :: fp)
      (mkDecimal (signed neg (digitsValue (ip ++ fp)))
                 (- Z.of_nat (List.length fp))).

(** A sign directly after a leading point. *)
Definition signAfterLeadingPoint (t : gostring) : bool :=
  match t with
  | p :: c :: _ => Ascii.eqb p "." && (Ascii.eqb c "+" || Ascii.eqb c "-")
  | _ => false
  end.

(** The shape that the specification of [parse] describes: one optional
    leading sign, then digits and at most one point. *)
Definition claimedShape (t : gostring) : Prop :=
  exists sgn neg body,
    optSign sgn neg /\ t = sgn ++ body
    /\ forallb (fun c => isDigit c || Ascii.eqb c ".") body = true
    /\ (count_occ ascii_dec body "."%char <= 1)%nat.

(** No extraneous leading zeros: a lone zero, or a first digit that is not
    zero. *)
Definition canonicalInt (ip : gostring) : Prop :=
  ip = str "0" \/ exists c r, ip = c :: r /\ c <> "0"%char.

Definition signText (neg : bool) : gostring := if neg then str "-" else [].

(** ** Further operations of the package *)

Definition IsZero (d : Decimal) : bool := Cmp d zero =? 0.

Definition MinDecimal (first : Decimal) (rest : list Decimal) : Decimal :=
  fold_left (fun ans item => if Cmp item ans <? 0 then item else ans)
            rest first.

Definition MaxDecimal (first : Decimal) (rest : list Decimal) : Decimal :=
  fold_left (fun ans item => if Cmp item ans >? 0 then item else ans)
            rest first.

Definition MustParseDecimal (value : gostring) : result Decimal :=
  match ParseDecimal value with
  | (d, None) => Ok d
  | (_, Some _) => Panic "invalid decimal"
  end.

(** An error made by [fmt.Errorf] from the text that was read and the error
    of [ParseDecimal]. *)
Inductive textError : Type :=
| ErrParsing (text : gostring) (cause : error)
| ErrDecoding (text : gostring) (cause : error).

Definition quote : ascii := "034"%char.

Definition MarshalJSON (d : Decimal) : gostring * option textError :=
  ([quote] ++ String d ++ [quote], None).

(** [UnmarshalJSON]: the decimal that the receiver [d] holds afterwards and
    the error.  Data that is not a quoted text of at least one character is
    accepted and leaves the receiver as it is. *)
Definition UnmarshalJSON (d : Decimal) (data : gostring)
  : Decimal * option textError :=
  if (2 <? List.length data)%nat
     && Ascii.eqb (nth 0 data Ascii.zero) quote
     && Ascii.eqb (nth (List.length data - 1) data Ascii.zero) quote
  then
    let s := firstn (List.length data - 2) (skipn 1 data) in
    match ParseDecimal s with
    | (_, Some err) => (d, Some (ErrParsing s err))
    | (decimal, None) => (decimal, None)
    end
  else (d, None).

Definition MarshalText (d : Decimal) : gostring * option textError :=
  (String d, None).

(** [UnmarshalText] stores what [ParseDecimal] returns before it looks at
    the error. *)
Definition UnmarshalText (text : gostring) : Decimal * option textError :=
  match ParseDecimal text with
  | (dec, Some err) => (dec, Some (ErrDecoding text err))
  | (dec, None) => (dec, None)
  end.

(** [GobEncode] and [GobDecode] of the decimal are its binary form. *)
Definition DecimalGobEncode (d : Decimal) : list Z * option error :=
  MarshalBinary big.GobEncode d.

Definition DecimalGobDecode (data : list Z) : result (Decimal * option error) :=
  UnmarshalBinary big.GobDecode data.

(** ** Money *)

(** A currency is the text of its code. *)
Definition Currency : Type := gostring.

Record Money : Type := mkMoney { Amount : Decimal; CurrencyOf : Currency }.

Definition gostring_eqb (a b : gostring) : bool :=
  if list_eq_dec ascii_dec a b then true else false.

Definition MoneyEqual (x y : Money) : bool :=
  if negb (gostring_eqb (CurrencyOf x) (CurrencyOf y)) then false
  else Equal (Amount x) (Amount y).

(** ** Integer part and power *)

(** Conversion to [int64]. *)
Definition int64 (z : Z) : Z :=
  (z + 9223372036854775808) mod 18446744073709551616 - 9223372036854775808.

(** [Int.Int64] of [math/big]: the low 64 bits of the magnitude as an
    [int64], negated for a negative number. *)
Definition bigInt64 (x : Z) : Z :=
  let v := int64 (Z.abs x mod 18446744073709551616) in
  if x <? 0 then int64 (- v) else v.

Definition IntPart (d : Decimal) : Z :=
  let scaledD := rescale d 0 in
  bigInt64 (value scaledD).

(** [NewDecimal] on a [float64] that holds an integer of magnitude at most
    [2 ^ 53]: the fast path of the source. *)
Definition NewDecimalOfInteger (n : Z) : Decimal * option error :=
  (buildDecimal n 0, None).

(** [Pow]; the recursion of the source is on the exponent halved by [Div],
    here it is bounded by [fuel], and [None] means that the fuel ran out. *)
Fixpoint Pow (fuel : nat) (d d2 : Decimal) : option (result Decimal) :=
  match fuel with
  | O => None
  | S fuel' =>
      if IntPart d2 =? 0 then
        match NewDecimalOfInteger 1 with
        | (_, Some _) => Some (Panic "invalid decimal")
        | (x, None) => Some (Ok x)
        end
      else
        match NewDecimalOfInteger 2 with
        | (_, Some _) => Some (Panic "invalid decimal")
        | (x, None) =>
            match Div d2 x with
            | Panic msg => Some (Panic msg)
            | Ok half =>
                match Pow fuel' d half with
                | None => None
                | Some (Panic msg) => Some (Panic msg)
                | Some (Ok temp) =>
                    if Z.rem (IntPart d2) 2 =? 0 then Some (Mul temp temp)
                    else if IntPart d2 >? 0
                    then Some (t2 <- Mul temp temp ;; Mul t2 d)
                    else Some (t2 <- Mul temp temp ;; Div t2 d)
                end
            end
        end
  end.

(** ** Currencies *)

Inductive currencyError : Type :=
| ErrInvalidCurrency
| ErrUnsupportedCurrency.

Definition nullCurrency : Currency := [].

(** The registry of unofficial codes is a [sync.Map] from code to [true],
    here the list of the codes stored, used from one thread. *)
Definition registry : Type := list gostring.

Definition Load (reg : registry) (s : gostring) : bool :=
  existsb (gostring_eqb s) reg.

Definition Store (reg : registry) (s : gostring) : registry := s :: reg.

Inductive currencyTextError : Type :=
| ErrParsingCurrency (text : gostring) (cause : currencyError).

Section Currencies.

(** [strings.ToUpper] and [strings.TrimSpace], and [currency.ParseISO]
    followed by [String] on the unit it returns: the code of the ISO 4217
    currency, if the text is one. *)
Variable ToUpper : gostring -> gostring.
Variable TrimSpace : gostring -> gostring.
Variable ParseISO : gostring -> option gostring.

Definition ParseCurrency (reg : registry) (s : gostring)
  : Currency * option currencyError :=
  let s := TrimSpace (ToUpper s) in
  if Load reg s then (s, None)
  else
    match ParseISO s with
    | None => (nullCurrency, Some ErrInvalidCurrency)
    | Some u => (u, None)
    end.

(** [RegisterUnoficialCurrency]: the registry afterwards. *)
Definition RegisterUnoficialCurrency (reg : registry) (code : gostring)
  : registry :=
  let code := TrimSpace (ToUpper code) in
  match ParseCurrency reg code with
  | (_, Some ErrInvalidCurrency) => Store reg code
  | _ => reg
  end.

(** [Parse] of the money layer: the money, if any, and the error, which is
    the one of the amount or the one of the currency. *)
Definition MoneyParse (reg : registry) (amount currency : gostring)
  : option Money * option (error + currencyError) :=
  match ParseDecimal amount with
  | (_, Some err) => (None, Some (inl err))
  | (a, None) =>
      match ParseCurrency reg currency with
      | (_, Some err) => (None, Some (inr err))
      | (c, None) => (Some (mkMoney a c), None)
      end
  end.

(** The serialisations of a currency; the unmarshallers return the
    currency that the receiver [c] holds afterwards and the error. *)
Definition CurrencyMarshalJSON (c : Currency)
  : gostring * option currencyTextError :=
  ([quote] ++ c ++ [quote], None).

Definition CurrencyUnmarshalJSON (reg : registry) (c : Currency)
           (data : gostring) : Currency * option currencyTextError :=
  if (2 <? List.length data)%nat
     && Ascii.eqb (nth 0 data Ascii.zero) quote
     && Ascii.eqb (nth (List.length data - 1) data Ascii.zero) quote
  then
    let s := firstn (List.length data - 2) (skipn 1 data) in
    match ParseCurrency reg s with
    | (_, Some err) => (c, Some (ErrParsingCurrency s err))
    | (currency, None) => (currency, None)
    end
  else (c, None).

Definition CurrencyGobEncode (c : Currency) : gostring * option currencyError :=
  (c, None).

Definition CurrencyGobDecode (reg : registry) (c : Currency) (data : gostring)
  : Currency * option currencyError :=
  match ParseCurrency reg data with
  | (_, Some err) => (c, Some err)
  | (cur, None) => (cur, None)
  end.

(** [Validate] of a currency. *)
Definition CurrencyValidate (reg : registry) (c : Currency)
  : option currencyError :=
  snd (ParseCurrency reg c).

End Currencies.

(** The two text functions on the ASCII range, to have an instance. *)
Definition asciiToUpper (s : gostring) : gostring :=
  map (fun c => let n := nat_of_ascii c in
                if ((97 <=? n) && (n <=? 122))%nat
                then ascii_of_nat (n - 32) else c) s.

Fixpoint trimLeft (s : gostring) : gostring :=
  match s with
  | c :: s' => if Ascii.eqb c " " then trimLeft s' else s
  | [] => []
  end.

Definition asciiTrimSpace (s : gostring) : gostring :=
  rev (trimLeft (rev (trimLeft s))).

(** A few ISO 4217 codes, to have an instance. *)
Definition someISO (s : gostring) : option gostring :=
  if existsb (gostring_eqb s) [str "CHF"; str "EUR"; str "USD"; str "JPY"]
  then Some s else None.

(** * Properties *)

(** ** Machine integers *)

Lemma int32_id (z : Z) : in_int32 z -> int32 z = z.
Proof.
  unfold in_int32, MinInt32, MaxInt32, int32. intros H.
  rewrite Z.mod_small by lia. lia.
Qed.

Lemma int32_range (z : Z) : in_int32 (int32 z).
Proof.
  unfold in_int32, MinInt32, MaxInt32, int32.
  pose proof (Z.mod_pos_bound (z + 2147483648) 4294967296). lia.
Qed.

Lemma min_spec (x y : Z) : min x y = Z.min x y.
Proof. unfold min. destruct (Z.geb_spec x y); lia. Qed.

Lemma min_idem (x : Z) : min x x = x.
Proof. rewrite min_spec. lia. Qed.

(** ** Rescaling *)

Lemma exp_rescale (d : Decimal) (e : Z) : exp (rescale d e) = e.
Proof.
  unfold rescale.
  destruct (e >? exp d); [reflexivity|]. destruct (e <? exp d); reflexivity.
Qed.

Lemma rescale_same (d : Decimal) : rescale d (exp d) = d.
Proof.
  unfold rescale. rewrite Z.gtb_ltb, !Z.ltb_irrefl. destruct d; reflexivity.
Qed.

Lemma rescale_same_exp (d : Decimal) (e : Z) :
  e = exp d -> rescale d e = d.
Proof. intros ->. apply rescale_same. Qed.

Lemma big_Exp_pow (k : Z) : 0 <= k -> big.Exp 10 k = 10 ^ k.
Proof.
  intros H. unfold big.Exp. destruct (Z.leb_spec k 0); [|reflexivity].
  replace k with 0 by lia. reflexivity.
Qed.

Lemma rescale_finer (d : Decimal) (e : Z) :
  e <= exp d -> rescale d e = mkDecimal (value d * 10 ^ (exp d - e)) e.
Proof.
  intros H. unfold rescale.
  destruct (Z.gtb_spec e (exp d)); [lia|].
  destruct (Z.ltb_spec e (exp d)).
  - rewrite big_Exp_pow by lia. f_equal. f_equal. f_equal. lia.
  - replace (exp d - e) with 0 by lia. f_equal. simpl. lia.
Qed.

Lemma rescale_coarser (d : Decimal) (e : Z) :
  exp d <= e -> rescale d e = mkDecimal (Z.quot (value d) (10 ^ (e - exp d))) e.
Proof.
  intros H. unfold rescale.
  destruct (Z.gtb_spec e (exp d)).
  - rewrite big_Exp_pow by lia. unfold big.Quo. f_equal. f_equal. f_equal. lia.
  - replace (e - exp d) with 0 by lia. simpl. rewrite Z.quot_1_r.
    destruct (Z.ltb_spec e (exp d)); [lia|reflexivity].
Qed.

Lemma exp_Add (d d2 : Decimal) : exp (Add d d2) = Z.min (exp d) (exp d2).
Proof. unfold Add. simpl. apply min_spec. Qed.

Lemma exp_Sub (d d2 : Decimal) : exp (Sub d d2) = Z.min (exp d) (exp d2).
Proof. unfold Sub. simpl. apply min_spec. Qed.

(** ** Multiplication *)

Lemma Mul_in_range (d d2 : Decimal) :
  in_int32 (exp d + exp d2) ->
  Mul d d2 = Ok (mkDecimal (value d * value d2) (exp d + exp d2)).
Proof.
  intros H. unfold Mul. pose proof H as H'.
  unfold in_int32 in H'.
  destruct (Z.gtb_spec (exp d + exp d2) MaxInt32); [lia|].
  destruct (Z.ltb_spec (exp d + exp d2) MinInt32); [lia|].
  simpl. rewrite int32_id by exact H. reflexivity.
Qed.

(** C7. [Mul] returns the product of the coefficients at the sum of the
    exponents, and it panics exactly when that sum, which cannot overflow
    the 64-bit addition, leaves the [int32] range; a decimal it returns has
    an exponent that fits in [int32]. *)
Theorem Mul_product_or_panic (d d2 : Decimal) :
  (in_int32 (exp d + exp d2) ->
     Mul d d2 = Ok (mkDecimal (value d * value d2) (exp d + exp d2)))
  /\ ((exists msg, Mul d d2 = Panic msg) <-> ~ in_int32 (exp d + exp d2))
  /\ (forall r, Mul d d2 = Ok r -> wf r).
Proof.
  unfold Mul, in_int32, wf.
  destruct (Z.gtb_spec (exp d + exp d2) MaxInt32) as [Hgt|Hle]; simpl.
  - split; [lia|]. split.
    + split; [lia|]. intros _. eexists; reflexivity.
    + intros r Hr. discriminate.
  - destruct (Z.ltb_spec (exp d + exp d2) MinInt32) as [Hlt|Hge].
    + split; [lia|]. split.
      * split; [lia|]. intros _. eexists; reflexivity.
      * intros r Hr. discriminate.
    + split.
      * intros _. rewrite int32_id by (unfold in_int32; lia). reflexivity.
      * split.
        -- split; [intros [msg Hm]; discriminate | lia].
        -- intros r Hr. injection Hr as <-. simpl. apply int32_range.
Qed.

Example Mul_example :
  Mul (mkDecimal 12 (-1)) (mkDecimal (-5) (-2)) = Ok (mkDecimal (-60) (-3)).
Proof. reflexivity. Qed.

Example Mul_overflow_example :
  Mul (mkDecimal 1 MinInt32) (mkDecimal 1 (-1))
  = Panic "exponent overflows an int32!".
Proof. reflexivity. Qed.

(** ** Division *)

Lemma quoRem_zero_divisor (d d2 : Decimal) (precision : Z) :
  value d2 = 0 -> quoRem d d2 precision = Panic "decimal division by 0".
Proof. intros H. unfold quoRem. rewrite H. reflexivity. Qed.

(** The overflow test of [quoRem] never fires: the value it inspects has
    already been wrapped to [int32]. *)
Lemma quoRem_nonzero_divisor (d d2 : Decimal) (precision : Z) :
  value d2 <> 0 ->
  exists q r, quoRem d d2 precision = Ok (q, r) /\ exp q = int32 (- precision).
Proof.
  intros H. unfold quoRem.
  destruct (Z.eqb_spec (big.Sign (value d2)) SignNeutral) as [Hs|_].
  - exfalso. apply H. apply Z.sgn_null_iff. exact Hs.
  - set (e := int32 (int32 (exp d - exp d2) - int32 (- precision))).
    pose proof (int32_range (int32 (exp d - exp d2) - int32 (- precision))) as He.
    fold e in He. unfold in_int32 in He.
    destruct (Z.gtb_spec e MaxInt32); [lia|].
    destruct (Z.ltb_spec e MinInt32); [lia|]. simpl.
    destruct (e <? 0); eexists; eexists; split; reflexivity.
Qed.

Lemma divRound_zero_divisor (d d2 : Decimal) (precision : Z) :
  value d2 = 0 -> divRound d d2 precision = Panic "decimal division by 0".
Proof.
  intros H. unfold divRound. rewrite quoRem_zero_divisor by assumption.
  reflexivity.
Qed.

Lemma divRound_nonzero_divisor (d d2 : Decimal) (precision : Z) :
  value d2 <> 0 ->
  exists q, divRound d d2 precision = Ok q /\ exp q = int32 (- precision).
Proof.
  intros H. unfold divRound.
  destruct (quoRem_nonzero_divisor d d2 precision H) as (q & r & -> & Hq).
  simpl.
  destruct (_ <? 0); [eauto|].
  destruct (_ <? SignNegative); eexists; (split; [reflexivity|]).
  - rewrite exp_Sub. simpl. lia.
  - rewrite exp_Add. simpl. lia.
Qed.

Lemma Div_nonzero_divisor (d d2 : Decimal) :
  value d2 <> 0 -> exists q, Div d d2 = Ok q /\ exp q = -16.
Proof.
  intros H.
  destruct (divRound_nonzero_divisor d d2 (int32 divisionPrecision) H)
    as (q & Hq & He).
  exists q. split; [exact Hq|]. rewrite He. reflexivity.
Qed.

Lemma Truncate_0_of_fine (q : Decimal) : exp q < 0 -> exp (Truncate q 0) = 0.
Proof.
  intros H. unfold Truncate. change (int32 (- 0)) with 0.
  change (0 >=? 0) with true. cbv beta iota delta [andb].
  destruct (Z.gtb_spec 0 (exp q)); [|lia]. apply exp_rescale.
Qed.

(** C8. Division, and [Mod] which is built on it, panics when the
    coefficient of the divisor is zero, whatever its exponent, and returns
    a decimal for every other divisor. *)
Theorem Div_Mod_panic_iff_zero_divisor (d d2 : Decimal) (Hwf : wf d2) :
  (value d2 = 0 ->
     (exists msg, Div d d2 = Panic msg) /\ (exists msg, Mod d d2 = Panic msg))
  /\ (value d2 <> 0 ->
     (exists q, Div d d2 = Ok q) /\ (exists m, Mod d d2 = Ok m)).
Proof.
  split; intros H.
  - assert (HD : Div d d2 = Panic "decimal division by 0")
      by (apply divRound_zero_divisor; assumption).
    split; [eauto|]. unfold Mod. rewrite HD. simpl. eauto.
  - destruct (Div_nonzero_divisor d d2 H) as (q & HD & Hq).
    split; [eauto|]. unfold Mod. rewrite HD. simpl.
    rewrite Mul_in_range
      by (rewrite Truncate_0_of_fine, Z.add_0_r by lia; exact Hwf).
    simpl. eauto.
Qed.

Lemma Div_Mod_panic_iff_zero_divisor_witness :
  ((exists q, Div (mkDecimal 100 (-1)) (mkDecimal 3 0) = Ok q)
   /\ (exists m, Mod (mkDecimal 100 (-1)) (mkDecimal 3 0) = Ok m))
  /\ ((exists msg, Div (mkDecimal 100 (-1)) (mkDecimal 0 (-2)) = Panic msg)
      /\ (exists msg, Mod (mkDecimal 100 (-1)) (mkDecimal 0 (-2)) = Panic msg)).
Proof.
  split.
  - apply (Div_Mod_panic_iff_zero_divisor (mkDecimal 100 (-1)) (mkDecimal 3 0)).
    + unfold wf, in_int32, MinInt32, MaxInt32. simpl. lia.
    + simpl. lia.
  - apply (Div_Mod_panic_iff_zero_divisor (mkDecimal 100 (-1)) (mkDecimal 0 (-2))).
    + unfold wf, in_int32, MinInt32, MaxInt32. simpl. lia.
    + reflexivity.
Defined.

Lemma sign_product_not_below_minus_one (a b : Z) :
  (big.Sign a * big.Sign b <? SignNegative) = false.
Proof.
  unfold big.Sign, SignNegative. apply Z.ltb_ge.
  destruct a, b; simpl; lia.
Qed.

(** Division when the dividend is at least as coarse as the quotient needs:
    the coefficient of the dividend is scaled up, and the bump is [+1]
    whatever the signs. *)
Lemma Div_scaled_dividend (d d2 : Decimal) :
  value d2 <> 0 ->
  0 <= exp d - exp d2 + 16 <= MaxInt32 ->
  in_int32 (exp d - exp d2) ->
  in_int32 (exp d2 - 16) ->
  in_int32 (exp d2) ->
  Div d d2 =
  Ok (let n := value d * 10 ^ (exp d - exp d2 + 16) in
      let q := Z.quot n (value d2) in
      mkDecimal (if 2 * Z.abs (Z.rem n (value d2)) <? Z.abs (value d2)
                 then q else q + 1) (-16)).
Proof.
  intros Hnz He H1 H2 H3.
  unfold Div, divRound, quoRem.
  destruct (Z.eqb_spec (big.Sign (value d2)) SignNeutral) as [Hs|_].
  { exfalso. apply Hnz. apply Z.sgn_null_iff. exact Hs. }
  change (int32 divisionPrecision) with 16.
  change (int32 (- (16))) with (-16).
  rewrite (int32_id (exp d - exp d2)) by assumption.
  replace (exp d - exp d2 - -16) with (exp d - exp d2 + 16) by lia.
  rewrite (int32_id (exp d - exp d2 + 16))
    by (unfold in_int32, MinInt32, MaxInt32 in *; lia).
  destruct (Z.gtb_spec (exp d - exp d2 + 16) MaxInt32); [lia|].
  destruct (Z.ltb_spec (exp d - exp d2 + 16) MinInt32);
    [unfold MinInt32 in *; lia|].
  destruct (Z.ltb_spec (exp d - exp d2 + 16) 0); [lia|].
  cbn [orb bind value exp].
  rewrite big_Exp_pow by lia.
  replace (-16 + exp d2) with (exp d2 - 16) by lia.
  rewrite (int32_id (exp d2 - 16)) by assumption.
  replace (exp d2 - 16 + 16) with (exp d2) by lia.
  rewrite (int32_id (exp d2)) by assumption.
  unfold Cmp, Abs. cbn [value exp]. rewrite Z.eqb_refl.
  rewrite sign_product_not_below_minus_one.
  unfold big.Lsh, big.Quo, big.Rem. rewrite Z.shiftl_mul_pow2 by lia.
  change (2 ^ 1) with 2.
  set (n := value d * 10 ^ (exp d - exp d2 + 16)).
  cbv zeta.
  unfold big.Cmp.
  destruct (Z.compare_spec (Z.abs (Z.rem n (value d2)) * 2) (Z.abs (value d2)))
    as [Hc|Hc|Hc]; cbn [Z.ltb Z.compare];
    destruct (Z.ltb_spec (2 * Z.abs (Z.rem n (value d2))) (Z.abs (value d2)));
    try lia; reflexivity.
Qed.

(** C1. At [-2.0 / 3.0] the remainder test asks for a bump, and the code
    moves the truncated quotient [-0.6666666666666666] towards zero, to
    [-0.6666666666666665], where rounding half away from zero gives
    [-0.6666666666666667]: the sign test can never hold.  The quotient
    [100.0 / 1.08] of the specification is positive and comes out right. *)
Theorem Div_bumps_negative_quotient_towards_zero :
  Div (mkDecimal (-20) (-1)) (mkDecimal 30 (-1))
  = Ok (mkDecimal (-6666666666666665) (-16))
  /\ half_away_quot (-20 * 10 ^ 16) 30 = -6666666666666667
  /\ Div (mkDecimal 1000 (-1)) (mkDecimal 108 (-2))
     = Ok (mkDecimal 925925925925925926 (-16)).
Proof. repeat split; vm_compute; reflexivity. Qed.

(** X18. For a quotient that is positive, with exponents in range, [Div]
    gives at sixteen places the quotient rounded half away from zero, as
    its comment says. *)
Lemma Div_half_away_when_not_negative (d d2 : Decimal) :
  value d2 <> 0 ->
  0 <= exp d - exp d2 + 16 <= MaxInt32 ->
  in_int32 (exp d - exp d2) ->
  in_int32 (exp d2 - 16) ->
  in_int32 (exp d2) ->
  0 < value d * value d2 ->
  Div d d2 =
  Ok (mkDecimal
        (half_away_quot (value d * 10 ^ (exp d - exp d2 + 16)) (value d2))
        (-16)).
Proof.
  intros Hnz He H1 H2 H3 Hs.
  rewrite Div_scaled_dividend by assumption. cbv zeta. unfold half_away_quot.
  set (n := value d * 10 ^ (exp d - exp d2 + 16)).
  assert (Hp : 0 < 10 ^ (exp d - exp d2 + 16)) by (apply Z.pow_pos_nonneg; lia).
  assert (Hsg : Z.sgn n * Z.sgn (value d2) = 1).
  { unfold n. rewrite Z.sgn_mul, (Z.sgn_pos (10 ^ _)) by assumption.
    rewrite Z.mul_1_r, <- Z.sgn_mul. apply Z.sgn_pos. assumption. }
  rewrite Hsg.
  destruct (Z.ltb_spec (2 * Z.abs (Z.rem n (value d2))) (Z.abs (value d2)));
    destruct (Z.geb_spec (2 * Z.abs (Z.rem n (value d2))) (Z.abs (value d2)));
    try lia; reflexivity.
Qed.

(** ** Floor and ceiling *)

(** With an exponent that is not positive, [Ceil] is the least integer
    above the decimal, for negative coefficients too: the division is
    Euclidean, so a modulus that is not zero always calls for one more. *)
Lemma Ceil_least_integer_above (d : Decimal) :
  exp d <= 0 ->
  exp (Ceil d) = 0
  /\ value d <= value (Ceil d) * 10 ^ (- exp d)
  /\ (forall z, value d <= z * 10 ^ (- exp d) -> value (Ceil d) <= z).
Proof.
  intros He. unfold Ceil, big.DivMod, big.Div, big.Mod.
  rewrite big_Exp_pow by lia.
  assert (Hp : 0 < 10 ^ (- exp d)) by (apply Z.pow_pos_nonneg; lia).
  set (P := 10 ^ (- exp d)) in *.
  rewrite (Z.abs_eq P), (Z.sgn_pos P), Z.mul_1_l by lia.
  pose proof (Z.div_mod (value d) P ltac:(lia)) as Hdm.
  pose proof (Z.mod_pos_bound (value d) P Hp) as Hm.
  unfold big.Cmp.
  destruct (Z.compare_spec (value d mod P) 0) as [Hc|Hc|Hc];
    cbn [Z.eqb negb exp value]; (split; [reflexivity|]); split; try nia;
    intros z Hz; nia.
Qed.

(** C3. A decimal with a positive exponent, such as the [550] that
    [Round] returns for [545] at [-1] places, has its exponent dropped by
    [Ceil]: the result, [55], is below the argument. *)
Theorem Ceil_below_argument_at_positive_exponent :
  Round (mkDecimal 545 0) (-1) = mkDecimal 55 1
  /\ Ceil (mkDecimal 55 1) = mkDecimal 55 0
  /\ Cmp (Ceil (mkDecimal 55 1)) (mkDecimal 55 1) = -1.
Proof. repeat split; vm_compute; reflexivity. Qed.

Example Ceil_negative : Ceil (mkDecimal (-15) (-1)) = mkDecimal (-1) 0.
Proof. reflexivity. Qed.

(** ** Rounding to a number of places *)

Lemma big_Cmp_zero (m : Z) : (big.Cmp m 0 =? 0) = (m =? 0).
Proof. unfold big.Cmp. destruct m; reflexivity. Qed.

Lemma Round_dropDigit (d : Decimal) (places : Z) :
  Round d places =
  mkDecimal (dropDigit (value (rescale d (int32 (int32 (- places) - 1)))))
            (int32 (int32 (int32 (- places) - 1) + 1)).
Proof.
  unfold Round, dropDigit, big.DivMod, big.Div, big.Mod, big.Sign, SignNegative.
  rewrite exp_rescale. change (Z.abs 10) with 10. change (Z.sgn 10) with 1.
  rewrite big_Cmp_zero.
  destruct (Z.sgn (value (rescale d _)) =? -1); rewrite Z.mul_1_l;
    destruct (_ && _); reflexivity.
Qed.

Lemma dropDigit_tenfold (w : Z) : dropDigit (w * 10) = w.
Proof.
  unfold dropDigit.
  destruct (Z.eqb_spec (Z.sgn (w * 10)) (-1)) as [Hs|Hs].
  - assert (Hw : w < 0) by (destruct w; simpl in Hs; lia).
    replace (w * 10 - 5) with (5 + (w - 1) * 10) by lia.
    rewrite Z.div_add, Z.mod_add by lia.
    change (5 / 10) with 0. change (5 mod 10) with 5.
    rewrite Z.sgn_neg by lia. simpl. lia.
  - assert (Hw : 0 <= w) by (destruct w; simpl in Hs; lia).
    replace (w * 10 + 5) with (5 + w * 10) by lia.
    rewrite Z.div_add, Z.mod_add by lia.
    change (5 / 10) with 0. change (5 mod 10) with 5. simpl.
    destruct (Z.eqb_spec (Z.sgn w) (-1)) as [Hn|_]; [|reflexivity].
    destruct w; simpl in Hn; lia.
Qed.

Lemma dropDigit_opp (v : Z) : dropDigit (- v) = - dropDigit v.
Proof.
  unfold dropDigit.
  destruct v as [|p|p]; [reflexivity| |].
  - change (Z.sgn (- Z.pos p) =? -1) with true.
    change (Z.sgn (Z.pos p) =? -1) with false. cbv iota.
    replace (- Z.pos p - 5) with (- (Z.pos p + 5)) by lia.
    set (a := Z.pos p + 5). assert (Ha : 5 < a) by (unfold a; lia).
    pose proof (Z.div_mod a 10 ltac:(lia)) as E.
    pose proof (Z.mod_pos_bound a 10 ltac:(lia)) as B.
    pose proof (Z.div_mod (- a) 10 ltac:(lia)) as E'.
    pose proof (Z.mod_pos_bound (- a) 10 ltac:(lia)) as B'.
    assert (Hq : 0 <= a / 10) by (apply Z.div_pos; lia).
    rewrite (Z.sgn_neg (- a / 10)) by lia.
    destruct (Z.eqb_spec (Z.sgn (a / 10)) (-1)) as [Hn|_];
      [destruct (a / 10); simpl in Hn; lia|].
    rewrite Z.eqb_refl. cbn [andb].
    destruct (Z.eqb_spec (- a mod 10) 0); cbn [negb]; lia.
  - change (Z.sgn (- Z.neg p) =? -1) with false.
    change (Z.sgn (Z.neg p) =? -1) with true. cbv iota.
    replace (- Z.neg p + 5) with (- (Z.neg p - 5)) by lia.
    set (a := - (Z.neg p - 5)). assert (Ha : 5 < a) by (unfold a; lia).
    replace (Z.neg p - 5) with (- a) by (unfold a; lia).
    pose proof (Z.div_mod a 10 ltac:(lia)) as E.
    pose proof (Z.mod_pos_bound a 10 ltac:(lia)) as B.
    pose proof (Z.div_mod (- a) 10 ltac:(lia)) as E'.
    pose proof (Z.mod_pos_bound (- a) 10 ltac:(lia)) as B'.
    assert (Hq : 0 <= a / 10) by (apply Z.div_pos; lia).
    rewrite (Z.sgn_neg (- a / 10)) by lia.
    destruct (Z.eqb_spec (Z.sgn (a / 10)) (-1)) as [Hn|_];
      [destruct (a / 10); simpl in Hn; lia|].
    rewrite Z.eqb_refl. cbn [andb].
    destruct (Z.eqb_spec (- a mod 10) 0); cbn [negb]; lia.
Qed.

(** C6. For every number of places except the least [int32], rounding a
    rounded decimal again gives back the same coefficient and the same
    exponent, so the two are also [Equal]. *)
Theorem Round_idempotent (d : Decimal) (p : Z) :
  MinInt32 < p <= MaxInt32 ->
  Round (Round d p) p = Round d p
  /\ Equal (Round (Round d p) p) (Round d p) = true.
Proof.
  intros Hp.
  assert (H : Round (Round d p) p = Round d p).
  { rewrite (Round_dropDigit (Round d p)), (Round_dropDigit d).
    rewrite (int32_id (- p)) by (unfold in_int32, MinInt32, MaxInt32 in *; lia).
    rewrite (int32_id (- p - 1)) by (unfold in_int32, MinInt32, MaxInt32 in *; lia).
    replace (- p - 1 + 1) with (- p) by lia.
    rewrite (int32_id (- p)) by (unfold in_int32, MinInt32, MaxInt32 in *; lia).
    f_equal. rewrite rescale_finer by (cbn [exp]; lia). cbn [value exp].
    replace (- p - (- p - 1)) with 1 by lia. change (10 ^ 1) with 10.
    apply dropDigit_tenfold. }
  split; [exact H|]. rewrite H. unfold Equal, Cmp. rewrite Z.eqb_refl.
  unfold big.Cmp. rewrite Z.compare_refl. reflexivity.
Qed.

Lemma Round_idempotent_witness :
  Round (Round (mkDecimal 11115 (-5)) 4) 4 = Round (mkDecimal 11115 (-5)) 4
  /\ Equal (Round (Round (mkDecimal 11115 (-5)) 4) 4)
           (Round (mkDecimal 11115 (-5)) 4) = true.
Proof.
  apply (Round_idempotent (mkDecimal 11115 (-5)) 4).
  unfold MinInt32, MaxInt32. lia.
Defined.

Lemma quot_1_pow10 (k : Z) : 0 < k -> Z.quot 1 (10 ^ k) = 0.
Proof.
  intros Hk. apply Z.quot_small. split; [lia|]. apply Z.pow_gt_1; lia.
Qed.

Lemma Round_at_MinInt32_first :
  Round (mkDecimal 10 MaxInt32) MinInt32 = mkDecimal 1 MinInt32.
Proof. vm_compute. reflexivity. Qed.

Lemma Round_at_MinInt32_second :
  Round (mkDecimal 1 MinInt32) MinInt32 = mkDecimal 0 MinInt32.
Proof.
  rewrite Round_dropDigit.
  change (int32 (int32 (- MinInt32) - 1)) with MaxInt32.
  change (int32 (MaxInt32 + 1)) with MinInt32.
  rewrite rescale_coarser by (cbn [exp]; unfold MinInt32, MaxInt32; lia).
  cbn [value exp].
  rewrite quot_1_pow10 by (unfold MinInt32, MaxInt32; lia).
  reflexivity.
Qed.

Lemma Round_at_MinInt32_not_Equal :
  Equal (Round (Round (mkDecimal 10 MaxInt32) MinInt32) MinInt32)
        (Round (mkDecimal 10 MaxInt32) MinInt32) = false.
Proof.
  rewrite Round_at_MinInt32_first, Round_at_MinInt32_second. reflexivity.
Qed.

(** At the least [int32] the negation of [places] wraps around and the
    exponent of the result wraps to the least [int32] as well: the decimal
    [10 * 10 ^ MaxInt32] is rounded to [1 * 10 ^ MinInt32], and a second
    rounding loses that coefficient. *)
Lemma Round_not_idempotent_at_MinInt32 :
  ~ (forall (d : Decimal) (p : Z),
       in_int32 (exp d) -> in_int32 p ->
       Round (Round d p) p = Round d p
       /\ Equal (Round (Round d p) p) (Round d p) = true).
Proof.
  intros H.
  destruct (H (mkDecimal 10 MaxInt32) MinInt32) as [_ HE];
    [unfold in_int32, MinInt32, MaxInt32; simpl; lia ..|].
  rewrite Round_at_MinInt32_not_Equal in HE. discriminate.
Qed.

(** ** Rounding to a unit *)




(** Scaling the dividend by a power of ten larger than the divisor, taking
    the truncated quotient, bumping it or not, and scaling back down gives
    the truncated quotient of the unscaled operands. *)
Lemma quot_scaled_bump_nonneg (A U P b : Z) :
  0 <= A -> 0 < U < P -> 0 <= b <= 1 ->
  ((A * P) / U + b) / P = A / U.
Proof.
  intros HA HU Hb.
  pose proof (Z.div_mod A U ltac:(lia)) as E.
  pose proof (Z.mod_pos_bound A U ltac:(lia)) as B.
  set (k := A / U) in *. set (s := A mod U) in *.
  replace (A * P) with (s * P + k * P * U) by (rewrite E; ring).
  rewrite Z.div_add by lia.
  pose proof (Z.div_mod (s * P) U ltac:(lia)) as E2.
  pose proof (Z.mod_pos_bound (s * P) U ltac:(lia)) as B2.
  set (t := s * P / U) in *. set (r := (s * P) mod U) in *.
  assert (Ht0 : 0 <= t) by (apply Z.div_pos; nia).
  assert (Ht : t + 1 < P) by nia.
  symmetry. apply (Z.div_unique _ _ _ (t + b)); lia.
Qed.

Lemma quot_scaled_bump (A U P : Z) :
  0 < U < P ->
  Z.quot (if 2 * Z.abs (Z.rem (A * P) U) <? Z.abs U
          then Z.quot (A * P) U else Z.quot (A * P) U + 1) P
  = Z.quot A U.
Proof.
  intros HU. rewrite (Z.abs_eq U) by lia.
  destruct (Z.le_gt_cases 0 A) as [HA|HA].
  - assert (HAP : 0 <= A * P) by nia.
    rewrite (Z.quot_div_nonneg (A * P) U), (Z.quot_div_nonneg A U) by lia.
    assert (Hq : 0 <= A * P / U) by (apply Z.div_pos; lia).
    destruct (_ <? _).
    + rewrite Z.quot_div_nonneg by lia.
      rewrite <- (quot_scaled_bump_nonneg A U P 0) by lia.
      rewrite Z.add_0_r. reflexivity.
    + rewrite Z.quot_div_nonneg by lia.
      apply quot_scaled_bump_nonneg; lia.
  - set (B := - A). assert (HB : 0 < B) by (unfold B; lia).
    replace A with (- B) by (unfold B; lia).
    replace (- B * P) with (- (B * P)) by ring.
    assert (HBP : 0 <= B * P) by nia.
    rewrite !Z.quot_opp_l, Z.rem_opp_l, Z.abs_opp by lia.
    rewrite (Z.quot_div_nonneg (B * P) U), (Z.quot_div_nonneg B U),
      (Z.rem_mod_nonneg (B * P) U) by lia.
    pose proof (Z.mod_pos_bound (B * P) U ltac:(lia)) as Bm.
    rewrite Z.abs_eq by lia.
    assert (Hq : 0 <= B * P / U) by (apply Z.div_pos; lia).
    destruct (Z.ltb_spec (2 * ((B * P) mod U)) U) as [Hlt|Hge].
    + rewrite Z.quot_opp_l, Z.quot_div_nonneg by lia.
      rewrite <- (quot_scaled_bump_nonneg B U P 0) by lia.
      rewrite Z.add_0_r. reflexivity.
    + (* the bump moves the negative quotient towards zero, but never
         across a multiple of [P] *)
      pose proof (Z.div_mod B U ltac:(lia)) as E.
      pose proof (Z.mod_pos_bound B U ltac:(lia)) as Bs.
      set (k := B / U) in *. set (s := B mod U) in *.
      assert (Hk : 0 <= k) by (apply Z.div_pos; lia).
      assert (Edm : B * P = s * P + k * P * U) by (rewrite E; ring).
      assert (Hmod : (B * P) mod U = (s * P) mod U)
        by (rewrite Edm; apply Z.mod_add; lia).
      assert (Hdiv : B * P / U = s * P / U + k * P)
        by (rewrite Edm; apply Z.div_add; lia).
      pose proof (Z.div_mod (s * P) U ltac:(lia)) as E2.
      pose proof (Z.mod_pos_bound (s * P) U ltac:(lia)) as B2.
      set (t := s * P / U) in *. set (r := (s * P) mod U) in *.
      assert (Ht0 : 0 <= t) by (apply Z.div_pos; nia).
      assert (Ht1 : 1 <= t).
      { destruct (Z.eq_dec t 0) as [Ht|Ht]; [|lia]. exfalso.
        assert (Hs : 1 <= s) by nia. nia. }
      assert (Htp : t < P) by nia.
      rewrite Hdiv.
      replace (- (t + k * P) + 1) with (- (t - 1 + k * P)) by ring.
      rewrite Z.quot_opp_l, Z.quot_div_nonneg by nia.
      rewrite Z.div_add by lia. rewrite Z.div_small by lia. lia.
Qed.

Lemma Add_same_exp (a b e : Z) :
  Add (mkDecimal a e) (mkDecimal b e) = mkDecimal (a + b) e.
Proof.
  unfold Add. cbn [value exp]. rewrite min_idem.
  rewrite !rescale_same_exp by reflexivity. reflexivity.
Qed.

Lemma Sub_same_exp (a b e : Z) :
  Sub (mkDecimal a e) (mkDecimal b e) = mkDecimal (a - b) e.
Proof.
  unfold Sub. cbn [value exp]. rewrite min_idem.
  rewrite !rescale_same_exp by reflexivity. reflexivity.
Qed.

(** With a unit below [10 ^ 16] at the exponent of the dividend, [Mod] is
    the truncated remainder of the coefficients: the sixteen digits of the
    quotient are enough for its integer part to be exact. *)
Lemma Mod_same_exp (A U e : Z) :
  0 < U < 10 ^ 16 ->
  in_int32 (e - 16) -> in_int32 e ->
  Mod (mkDecimal A e) (mkDecimal U e) = Ok (mkDecimal (Z.rem A U) e).
Proof.
  intros HU He16 He. unfold Mod.
  rewrite Div_scaled_dividend; cbn [value exp];
    try (unfold in_int32, MinInt32, MaxInt32 in *; lia).
  replace (e - e + 16) with 16 by lia. cbv zeta. cbn [bind].
  set (q' := if _ <? _ then _ else _).
  assert (HT : Truncate (mkDecimal q' (-16)) 0 = mkDecimal (Z.quot q' (10 ^ 16)) 0).
  { unfold Truncate. cbn [exp].
    change ((0 >=? 0) && (int32 (- 0) >? -16)) with true. cbv iota.
    change (int32 (- 0)) with 0.
    rewrite rescale_coarser by (cbn [exp]; lia). reflexivity. }
  rewrite HT. unfold q'. rewrite quot_scaled_bump by lia.
  unfold Mul. cbn [value exp]. rewrite Z.add_0_r.
  destruct (Z.gtb_spec e MaxInt32); [unfold in_int32 in He; lia|].
  destruct (Z.ltb_spec e MinInt32); [unfold in_int32 in He; lia|].
  cbn [orb bind]. rewrite int32_id by assumption.
  rewrite Sub_same_exp. f_equal. f_equal.
  pose proof (Z.quot_rem' A U). lia.
Qed.

(** Half of a unit that is coarser than [10 ^ -16] is exact. *)
Lemma Div_by_two_exact (U e : Z) :
  -16 < e <= MaxInt32 - 16 ->
  Div (mkDecimal U e) (buildDecimal 2 0)
  = Ok (mkDecimal (U * 5 * 10 ^ (e + 15)) (-16)).
Proof.
  intros He. unfold buildDecimal.
  rewrite Div_scaled_dividend; cbn [value exp];
    try (unfold in_int32, MinInt32, MaxInt32 in *; lia).
  replace (e - 0 + 16) with (e + 15 + 1) by lia.
  rewrite Z.pow_add_r by lia. change (10 ^ 1) with 10.
  replace (U * (10 ^ (e + 15) * 10)) with (U * 5 * 10 ^ (e + 15) * 2) by ring.
  cbv zeta. rewrite Z.rem_mul, Z.quot_mul by lia. reflexivity.
Qed.






(** At an exact midpoint the comparison with half the unit is an equality,
    the "round up" branch is not taken, and the remainder is dropped: the
    result is the multiple of smaller magnitude. *)
Lemma snap_midpoint_towards_zero (A U : Z) :
  0 < U -> 2 * Z.abs (Z.rem A U) = U ->
  snap A U = A - Z.rem A U /\ Z.abs (snap A U) < Z.abs A.
Proof.
  intros HU Hmid. unfold snap.
  destruct (Z.ltb_spec A 0) as [HA|HA].
  - pose proof (Z.rem_bound_pos_neg A U ltac:(lia) ltac:(lia)) as B.
    pose proof (Z.rem_le (- A) U ltac:(lia) ltac:(lia)) as L.
    rewrite Z.rem_opp_l in L by lia.
    destruct (Z.ltb_spec (2 * Z.rem A U) (- U)); lia.
  - pose proof (Z.rem_bound_pos A U ltac:(lia) ltac:(lia)) as B.
    pose proof (Z.rem_le A U ltac:(lia) ltac:(lia)) as L.
    destruct (Z.gtb_spec (2 * Z.rem A U) U); lia.
Qed.

(** C2. [120.25] is exactly midway between two multiples of the unit
    [0.50]: the remainder [0.25] is half the unit.  [RoundNearest] returns
    [120.00], the multiple of smaller magnitude, and [-120.00] for the
    negated argument, where rounding ties away from zero gives [120.50]
    and [-120.50].  The same happens to [1.45] with the unit [0.10]. *)
Theorem RoundNearest_midpoint_towards_zero :
  Round (mkDecimal 12025 (-2)) 2 = mkDecimal 12025 (-2)
  /\ Mod (mkDecimal 12025 (-2)) (mkDecimal 50 (-2)) = Ok (mkDecimal 25 (-2))
  /\ Div (mkDecimal 50 (-2)) (buildDecimal 2 0)
     = Ok (mkDecimal 2500000000000000 (-16))
  /\ RoundNearest (mkDecimal 12025 (-2)) (mkDecimal 50 (-2))
     = Ok (mkDecimal 12000 (-2))
  /\ RoundNearest (mkDecimal (-12025) (-2)) (mkDecimal 50 (-2))
     = Ok (mkDecimal (-12000) (-2))
  /\ RoundNearest (mkDecimal 145 (-2)) (mkDecimal 10 (-2))
     = Ok (mkDecimal 140 (-2)).
Proof. repeat split; vm_compute; reflexivity. Qed.




(** ** Positional notation *)

Section Positional.

Variable base : Z.
Hypothesis base_gt_1 : 1 < base.

Lemma toDigits_acc (f : nat) :
  forall n acc, toDigits base f n acc = toDigits base f n [] ++ acc.
Proof.
  induction f as [|f IH]; intros n acc; simpl; [reflexivity|].
  destruct (n =? 0); [reflexivity|].
  rewrite IH, (IH _ [_]), <- app_assoc. reflexivity.
Qed.

Lemma ofDigits_app (a : Z) (l l' : list Z) :
  ofDigits base a (l ++ l') = ofDigits base (ofDigits base a l) l'.
Proof. unfold ofDigits. apply fold_left_app. Qed.

Lemma ofDigits_toDigits (f : nat) :
  forall n acc,
    0 <= n < base ^ Z.of_nat f ->
    ofDigits base 0 (toDigits base f n acc) = ofDigits base n acc.
Proof.
  induction f as [|f IH]; intros n acc Hn.
  - simpl in *. replace n with 0 by lia. reflexivity.
  - simpl toDigits. destruct (Z.eqb_spec n 0) as [->|Hnz]; [reflexivity|].
    rewrite IH.
    + simpl. f_equal. pose proof (Z.div_mod n base). lia.
    + rewrite Nat2Z.inj_succ, Z.pow_succ_r in Hn by lia. split.
      * apply Z.div_pos; lia.
      * apply Z.div_lt_upper_bound; lia.
Qed.

Lemma fuel_enough (n : Z) :
  0 <= n -> n < base ^ Z.of_nat (S (Z.to_nat (Z.log2 n))).
Proof.
  intros Hn. pose proof (Z.log2_nonneg n) as Hl.
  rewrite Nat2Z.inj_succ, Z2Nat.id by lia.
  destruct (Z.eq_dec n 0) as [->|Hnz].
  - apply Z.pow_pos_nonneg; simpl; lia.
  - pose proof (Z.log2_spec n ltac:(lia)) as [_ Hu].
    assert (2 ^ Z.succ (Z.log2 n) <= base ^ Z.succ (Z.log2 n))
      by (apply Z.pow_le_mono_l; lia).
    lia.
Qed.

Lemma toDigits_fuel (f : nat) :
  forall g n,
    0 <= n < base ^ Z.of_nat f -> n < base ^ Z.of_nat g ->
    toDigits base f n [] = toDigits base g n [].
Proof.
  induction f as [|f IH]; intros g n Hf Hg.
  - simpl in Hf. replace n with 0 by lia. destruct g; reflexivity.
  - destruct g as [|g].
    + simpl in Hg. replace n with 0 by lia. reflexivity.
    + simpl. destruct (Z.eqb_spec n 0); [reflexivity|].
      rewrite toDigits_acc, (toDigits_acc g). f_equal.
      rewrite Nat2Z.inj_succ, Z.pow_succ_r in Hf, Hg by lia.
      apply IH; [split|]; try (apply Z.div_lt_upper_bound; lia).
      apply Z.div_pos; lia.
Qed.

Lemma digitsOf_0 : digitsOf base 0 = [].
Proof. reflexivity. Qed.

Lemma digitsOf_step (n : Z) :
  0 < n -> digitsOf base n = digitsOf base (n / base) ++ [n mod base].
Proof.
  intros Hn. unfold digitsOf at 1. simpl toDigits.
  destruct (Z.eqb_spec n 0); [lia|].
  rewrite toDigits_acc. f_equal. unfold digitsOf.
  assert (Hq : 0 <= n / base) by (apply Z.div_pos; lia).
  apply toDigits_fuel; [split; [exact Hq|]|apply fuel_enough; exact Hq].
  pose proof (Z.log2_nonneg n) as Hl. rewrite Z2Nat.id by lia.
  pose proof (Z.log2_spec n Hn) as [_ Hu]. rewrite Z.pow_succ_r in Hu by lia.
  assert (2 ^ Z.log2 n <= base ^ Z.log2 n) by (apply Z.pow_le_mono_l; lia).
  apply Z.div_lt_upper_bound; nia.
Qed.

Lemma ofDigits_digitsOf (n : Z) :
  0 <= n -> ofDigits base 0 (digitsOf base n) = n.
Proof.
  intros Hn. unfold digitsOf. rewrite ofDigits_toDigits; [reflexivity|].
  split; [exact Hn|apply fuel_enough; exact Hn].
Qed.

End Positional.

(** ** Decimal digits *)

Lemma isDigit_value (c : ascii) :
  isDigit c = true -> 0 <= digitValue c < 10 /\ digitChar (digitValue c) = c.
Proof.
  unfold isDigit, digitValue, digitChar. intros H.
  apply andb_true_iff in H as [H1 H2]. apply Z.leb_le in H1, H2.
  split; [lia|].
  replace (Z.of_N (N_of_ascii c) - 48 + 48) with (Z.of_N (N_of_ascii c)) by lia.
  rewrite N2Z.id. apply ascii_N_embedding.
Qed.

Lemma digitValue_zero (c : ascii) :
  isDigit c = true -> digitValue c = 0 -> c = "0"%char.
Proof.
  intros H E. destruct (isDigit_value c H) as [_ <-]. rewrite E. reflexivity.
Qed.

Lemma ofDigits_cons (a d : Z) (l : list Z) :
  ofDigits 10 a (d :: l) = ofDigits 10 (10 * a + d) l.
Proof. reflexivity. Qed.

Lemma ofDigits_lower_bound (s : gostring) :
  forall a, allDigits s -> 0 <= a -> a <= ofDigits 10 a (map digitValue s).
Proof.
  unfold allDigits.
  induction s as [|c s IH]; intros a H Ha; simpl map; [simpl; lia|].
  simpl in H. apply andb_true_iff in H as [Hc Hs].
  rewrite ofDigits_cons. pose proof (isDigit_value c Hc) as [Hv _].
  specialize (IH (10 * a + digitValue c) Hs ltac:(lia)). lia.
Qed.

Lemma scanDigits_spec (s : gostring) :
  forall a, allDigits s ->
            big.scanDigits a s = Some (ofDigits 10 a (map digitValue s)).
Proof.
  unfold allDigits.
  induction s as [|c s IH]; intros a H; simpl in *; [reflexivity|].
  apply andb_true_iff in H as [Hc Hs]. rewrite Hc. apply IH, Hs.
Qed.

Lemma scanDigits_Some (s : gostring) :
  forall a v, big.scanDigits a s = Some v -> allDigits s.
Proof.
  unfold allDigits.
  induction s as [|c s IH]; intros a v H; simpl in *; [reflexivity|].
  destruct (isDigit c); [|discriminate]. simpl. eapply IH, H.
Qed.

Lemma utoa_step (n d : Z) :
  0 < n -> 0 <= d < 10 -> big.utoa (10 * n + d) = big.utoa n ++ [digitChar d].
Proof.
  intros Hn Hd. unfold big.utoa.
  destruct (Z.eqb_spec (10 * n + d) 0); [lia|].
  destruct (Z.eqb_spec n 0); [lia|].
  rewrite (digitsOf_step 10) by lia.
  replace ((10 * n + d) / 10) with n
    by (apply (Z.div_unique _ _ _ d); lia).
  replace ((10 * n + d) mod 10) with d
    by (apply (Z.mod_unique _ _ n); lia).
  rewrite map_app. reflexivity.
Qed.

Lemma utoa_digit (d : Z) : 0 < d < 10 -> big.utoa d = [digitChar d].
Proof.
  intros Hd. unfold big.utoa. destruct (Z.eqb_spec d 0); [lia|].
  rewrite (digitsOf_step 10) by lia.
  rewrite Z.div_small, Z.mod_small by lia. reflexivity.
Qed.

(** Printing what has been scanned after a number that is not zero gives
    back the digits scanned. *)
Lemma utoa_scan (r : gostring) :
  forall a, 0 < a -> allDigits r ->
            big.utoa (ofDigits 10 a (map digitValue r)) = big.utoa a ++ r.
Proof.
  unfold allDigits.
  induction r as [|c r IH]; intros a Ha H; simpl map.
  - simpl. rewrite app_nil_r. reflexivity.
  - simpl in H. apply andb_true_iff in H as [Hc Hr].
    destruct (isDigit_value c Hc) as [Hv Hch].
    rewrite ofDigits_cons, IH by (assumption || lia).
    rewrite utoa_step, Hch, <- app_assoc by lia. reflexivity.
Qed.

Lemma utoa_nonzero_leading (c : ascii) (r : gostring) :
  isDigit c = true -> c <> "0"%char -> allDigits r ->
  big.utoa (digitsValue (c :: r)) = c :: r.
Proof.
  intros Hc Hnz Hr. unfold digitsValue. simpl map. rewrite ofDigits_cons.
  destruct (isDigit_value c Hc) as [Hv Hch].
  assert (digitValue c <> 0) by (intros E; apply Hnz, digitValue_zero; assumption).
  simpl (10 * 0 + _). rewrite utoa_scan by (assumption || lia).
  rewrite utoa_digit, Hch by lia. reflexivity.
Qed.

(** Printing the value of a string of digits gives the string without its
    leading zeros. *)
Lemma utoa_pad (r : gostring) :
  allDigits r -> r <> [] ->
  exists k, r = repeat "0"%char k ++ big.utoa (digitsValue r).
Proof.
  induction r as [|c r IH]; intros H Hne; [contradiction|].
  pose proof H as H'. unfold allDigits in H'. simpl in H'.
  apply andb_true_iff in H' as [Hc Hr].
  destruct (Ascii.eqb_spec c "0"%char) as [->|Hnz].
  - destruct r as [|c' r'].
    + exists 0%nat. reflexivity.
    + destruct (IH Hr ltac:(discriminate)) as [k Hk].
      exists (S k). simpl repeat. simpl app. f_equal. exact Hk.
  - exists 0%nat. simpl repeat. simpl app. symmetry.
    apply utoa_nonzero_leading; assumption.
Qed.

Lemma digitsValue_nonneg (s : gostring) : allDigits s -> 0 <= digitsValue s.
Proof. intros H. apply (ofDigits_lower_bound s 0 H). lia. Qed.

(** ** The shape of the texts that [ParseDecimal] accepts *)

Lemma allDigits_app (a b : gostring) :
  allDigits (a ++ b) <-> allDigits a /\ allDigits b.
Proof. unfold allDigits. rewrite forallb_app. apply andb_true_iff. Qed.

Lemma isDigit_not_symbol (c : ascii) :
  isDigit c = true -> c <> "."%char /\ c <> "+"%char /\ c <> "-"%char.
Proof. intros H. repeat split; intros ->; discriminate. Qed.

Lemma allDigits_no_point (s : gostring) : allDigits s -> ~ In "."%char s.
Proof.
  unfold allDigits. rewrite forallb_forall. intros H Hin.
  destruct (isDigit_not_symbol _ (H _ Hin)) as [Hp _]. apply Hp. reflexivity.
Qed.

Lemma optSign_no_point (sgn : gostring) (neg : bool) :
  optSign sgn neg -> ~ In "."%char sgn.
Proof. intros [] Hin; simpl in Hin; intuition discriminate. Qed.

Lemma Split_nonempty (s : gostring) (sep : ascii) : Split s sep <> [].
Proof.
  destruct s as [|c s]; simpl; [discriminate|].
  destruct (Ascii.eqb c sep); [discriminate|].
  destruct (Split s sep); discriminate.
Qed.

Lemma Split_no_sep (s : gostring) (sep : ascii) :
  ~ In sep s -> Split s sep = [s].
Proof.
  induction s as [|c s IH]; intros H; simpl; [reflexivity|].
  destruct (Ascii.eqb_spec c sep) as [->|_]; [exfalso; apply H; left; reflexivity|].
  rewrite IH by (intros Hin; apply H; right; exact Hin). reflexivity.
Qed.

Lemma Split_at_sep (a b : gostring) (sep : ascii) :
  ~ In sep a -> Split (a ++ sep :: b) sep = a :: Split b sep.
Proof.
  induction a as [|c a IH]; intros H; simpl.
  - rewrite Ascii.eqb_refl. reflexivity.
  - destruct (Ascii.eqb_spec c sep) as [->|_];
      [exfalso; apply H; left; reflexivity|].
    rewrite IH by (intros Hin; apply H; right; exact Hin). reflexivity.
Qed.

Lemma Split_inv (sep : ascii) (s : gostring) :
  forall p ps,
    Split s sep = p :: ps ->
    ~ In sep p
    /\ ((ps = [] /\ s = p)
        \/ exists s', s = p ++ sep :: s' /\ Split s' sep = ps).
Proof.
  induction s as [|c s IH]; intros p ps H; simpl in H.
  - injection H as <- <-. split; [intros []|]. left. split; reflexivity.
  - destruct (Ascii.eqb_spec c sep) as [->|Hc].
    + injection H as <- <-. split; [intros []|]. right. exists s.
      split; reflexivity.
    + destruct (Split s sep) as [|p' ps'] eqn:E;
        [exfalso; apply (Split_nonempty s sep); exact E|].
      injection H as <- <-. destruct (IH p' ps' eq_refl) as [Hn Hcases].
      split.
      * intros [Hin|Hin]; [apply Hc; exact Hin|apply Hn; exact Hin].
      * destruct Hcases as [[-> ->]|[s' [-> Hs']]].
        -- left. split; reflexivity.
        -- right. exists s'. split; [reflexivity|exact Hs'].
Qed.

Lemma SetString_signed (sgn : gostring) (neg : bool) (body : gostring) :
  optSign sgn neg -> allDigits body -> body <> [] ->
  big.SetString (sgn ++ body) = Some (signed neg (digitsValue body)).
Proof.
  intros Hs Hb Hne. unfold big.SetString, digitsValue.
  destruct Hs; simpl app.
  - destruct body as [|c r]; [contradiction|].
    pose proof Hb as Hb'. unfold allDigits in Hb'. simpl in Hb'.
    apply andb_true_iff in Hb' as [Hc _].
    destruct (isDigit_not_symbol c Hc) as (_ & Hp & Hm).
    destruct (Ascii.eqb_spec c "+"); [contradiction|].
    destruct (Ascii.eqb_spec c "-"); [contradiction|].
    rewrite scanDigits_spec by assumption. reflexivity.
  - simpl. destruct body as [|c r]; [contradiction|].
    rewrite scanDigits_spec by assumption. reflexivity.
  - simpl. destruct body as [|c r]; [contradiction|].
    rewrite scanDigits_spec by assumption. reflexivity.
Qed.

Lemma SetString_inv (s : gostring) (v : Z) :
  big.SetString s = Some v ->
  exists sgn neg body,
    optSign sgn neg /\ s = sgn ++ body /\ allDigits body /\ body <> []
    /\ v = signed neg (digitsValue body).
Proof.
  unfold big.SetString. intros H.
  assert (Hgen : forall (neg : bool) (body : gostring),
             match body with
             | [] => None
             | _ :: _ =>
                 match big.scanDigits 0 body with
                 | Some n => Some (if neg then - n else n)
                 | None => None
                 end
             end = Some v ->
             allDigits body /\ body <> [] /\ v = signed neg (digitsValue body)).
  { intros neg body Hb. destruct body as [|c r]; [discriminate|].
    destruct (big.scanDigits 0 (c :: r)) as [n|] eqn:E; [|discriminate].
    pose proof (scanDigits_Some _ _ _ E) as Hd.
    rewrite scanDigits_spec in E by assumption.
    injection E as <-. injection Hb as <-.
    split; [assumption|]. split; [discriminate|reflexivity]. }
  destruct s as [|c r].
  - discriminate.
  - destruct (Ascii.eqb_spec c "+") as [->|Hp].
    + destruct (Hgen false r H) as (Hd & Hne & Hv).
      exists ["+"%char], false, r. repeat split; try assumption. constructor.
    + destruct (Ascii.eqb_spec c "-") as [->|Hm].
      * destruct (Hgen true r H) as (Hd & Hne & Hv).
        exists ["-"%char], true, r. repeat split; try assumption. constructor.
      * destruct (Hgen false (c :: r) H) as (Hd & Hne & Hv).
        exists [], false, (c :: r). repeat split; try assumption. constructor.
Qed.

Lemma allowedRune_digits (s : gostring) :
  allDigits s -> forallb allowedRune s = true.
Proof.
  unfold allDigits. rewrite !forallb_forall. intros H c Hin.
  unfold allowedRune. rewrite (H c Hin). reflexivity.
Qed.

Lemma allowedRune_sign (sgn : gostring) (neg : bool) :
  optSign sgn neg -> forallb allowedRune sgn = true.
Proof. intros []; reflexivity. Qed.

Lemma parseResult_signed (sgn : gostring) (neg : bool) (body : gostring) (e : Z) :
  optSign sgn neg -> allDigits body -> body <> [] -> in_int32 e ->
  parseResult (sgn ++ body) e
  = (mkDecimal (signed neg (digitsValue body)) e, None).
Proof.
  intros Hs Hb Hne He. unfold parseResult.
  rewrite (SetString_signed sgn neg body) by assumption.
  unfold in_int32 in He.
  destruct (Z.ltb_spec e MinInt32); [lia|].
  destruct (Z.gtb_spec e MaxInt32); [lia|].
  simpl. rewrite int32_id by exact He. reflexivity.
Qed.

Lemma ParseDecimal_decimalText (t : gostring) (d : Decimal) :
  decimalText t d -> ParseDecimal t = (d, None).
Proof.
  intros H. destruct H as [sgn neg ip Hs Hi Hne|sgn neg ip fp Hs Hi Hf Hne Hlen].
  - unfold ParseDecimal.
    rewrite forallb_app, (allowedRune_sign sgn neg), allowedRune_digits
      by assumption.
    simpl negb. cbv iota.
    rewrite Split_no_sep.
    + apply parseResult_signed; try assumption.
      unfold in_int32, MinInt32, MaxInt32. lia.
    + intros Hin. apply in_app_or in Hin as [Hin|Hin].
      * apply (optSign_no_point _ _ Hs Hin).
      * apply (allDigits_no_point _ Hi Hin).
  - unfold ParseDecimal.
    assert (Hall : forallb allowedRune (sgn ++ ip ++ "."%char :: fp) = true).
    { rewrite !forallb_app. simpl.
      rewrite (allowedRune_sign sgn neg), !allowedRune_digits by assumption.
      reflexivity. }
    rewrite Hall. simpl negb. cbv iota.
    rewrite app_assoc, Split_at_sep, Split_no_sep.
    + rewrite <- app_assoc. apply parseResult_signed; try assumption.
      * apply allDigits_app. split; assumption.
      * unfold in_int32, MinInt32, MaxInt32. lia.
    + apply allDigits_no_point, Hf.
    + intros Hin. apply in_app_or in Hin as [Hin|Hin].
      * apply (optSign_no_point _ _ Hs Hin).
      * apply (allDigits_no_point _ Hi Hin).
Qed.

Lemma ParseDecimal_total (t : gostring) :
  ParseDecimal t = (zero, Some ErrInvalidDecimal)
  \/ exists d, ParseDecimal t = (d, None).
Proof.
  assert (Hr : forall ints e,
             parseResult ints e = (zero, Some ErrInvalidDecimal)
             \/ exists d, parseResult ints e = (d, None)).
  { intros ints e. unfold parseResult.
    destruct (big.SetString ints); [|left; reflexivity].
    destruct (_ || _); [left; reflexivity|right; eexists; reflexivity]. }
  unfold ParseDecimal. destruct (negb _); [left; reflexivity|].
  destruct (Split t ".") as [|p0 [|p1 [|p2 ps]]]; auto.
Qed.

Lemma parseResult_inv (ints : gostring) (e : Z) (d : Decimal) :
  parseResult ints e = (d, None) ->
  exists v, big.SetString ints = Some v /\ in_int32 e /\ d = mkDecimal v e.
Proof.
  unfold parseResult. intros H.
  destruct (big.SetString ints) as [v|]; [|discriminate].
  destruct (Z.ltb_spec e MinInt32); [discriminate|].
  destruct (Z.gtb_spec e MaxInt32); [discriminate|].
  simpl in H. injection H as <-. exists v.
  assert (He : in_int32 e) by (unfold in_int32; lia).
  rewrite int32_id by exact He. auto.
Qed.

Lemma ParseDecimal_inv (t : gostring) (d : Decimal) :
  signAfterLeadingPoint t = false ->
  ParseDecimal t = (d, None) -> decimalText t d.
Proof.
  intros Hlead H. unfold ParseDecimal in H.
  destruct (negb _); [discriminate|].
  destruct (Split t ".") as [|p0 [|p1 [|p2 ps]]] eqn:E; try discriminate.
  - apply Split_inv in E as [_ [[_ ->]|[s' [_ Hs']]]];
      [|exfalso; apply (Split_nonempty _ _ Hs')].
    apply parseResult_inv in H as (v & Hv & _ & ->).
    apply SetString_inv in Hv as (sgn & neg & body & Hs & -> & Hb & Hne & ->).
    apply text_integer; assumption.
  - apply Split_inv in E as [_ [[E' _]|[s' [-> Hs']]]]; [discriminate|].
    apply Split_inv in Hs' as [_ [[_ ->]|[s'' [_ Hs'']]]];
      [|exfalso; apply (Split_nonempty _ _ Hs'')].
    apply parseResult_inv in H as (v & Hv & He & ->).
    assert (Hlen : Z.of_nat (List.length p1) <= 2147483648)
      by (unfold in_int32, MinInt32 in He; lia).
    apply SetString_inv in Hv as (sgn & neg & body & Hs & Happ & Hb & Hne & ->).
    destruct Hs.
    + simpl in Happ. subst body. apply allDigits_app in Hb as [Hb0 Hb1].
      apply (text_fraction [] false p0 p1); try assumption. constructor.
    + destruct p0 as [|c p0].
      * simpl in Happ. subst p1. discriminate Hlead.
      * simpl in Happ. injection Happ as -> <-.
        apply allDigits_app in Hb as [Hb0 Hb1].
        apply (text_fraction ["+"%char] false p0 p1); try assumption.
        constructor.
    + destruct p0 as [|c p0].
      * simpl in Happ. subst p1. discriminate Hlead.
      * simpl in Happ. injection Happ as -> <-.
        apply allDigits_app in Hb as [Hb0 Hb1].
        apply (text_fraction ["-"%char] true p0 p1); try assumption.
        constructor.
Qed.

(** C9. For every text in which no sign directly follows a leading point,
    [ParseDecimal] succeeds exactly on an optional leading sign, digits and
    at most one point with digits after it, at least one digit in all and
    at most [2 ^ 31] after the point; the coefficient is the signed number
    that the digits write and the scale is the number of digits after the
    point.  On every other text it returns the invalid-decimal error, and
    whenever it returns an error the error is that one. *)
Theorem ParseDecimal_accepts_exactly_decimal_texts (t : gostring) :
  signAfterLeadingPoint t = false ->
  (forall d, ParseDecimal t = (d, None) <-> decimalText t d)
  /\ ((forall d, ~ decimalText t d) ->
      ParseDecimal t = (zero, Some ErrInvalidDecimal))
  /\ (forall d err,
        ParseDecimal t = (d, Some err) -> d = zero /\ err = ErrInvalidDecimal).
Proof.
  intros Hlead. split; [|split].
  - intros d. split; [apply ParseDecimal_inv; exact Hlead|].
    apply ParseDecimal_decimalText.
  - intros Hnone. destruct (ParseDecimal_total t) as [H|[d H]]; [exact H|].
    exfalso. apply (Hnone d). apply ParseDecimal_inv; assumption.
  - intros d err H. destruct (ParseDecimal_total t) as [H'|[d' H']];
      rewrite H' in H.
    + injection H as <- <-. split; reflexivity.
    + discriminate.
Qed.

Lemma ParseDecimal_accepts_exactly_decimal_texts_witness :
  ParseDecimal (str "-120.125") = (mkDecimal (-120125) (-3), None)
  <-> decimalText (str "-120.125") (mkDecimal (-120125) (-3)).
Proof.
  apply (proj1 (ParseDecimal_accepts_exactly_decimal_texts
                  (str "-120.125") eq_refl)).
Defined.

(** The empty text has no character outside the allowed ones and no point,
    yet it is rejected: there is no digit for [SetString] to read. *)
Lemma ParseDecimal_rejects_text_without_digit :
  ~ (forall t : gostring,
       snd (ParseDecimal t) = Some ErrInvalidDecimal <-> ~ claimedShape t).
Proof.
  intros H. destruct (H []) as [H1 _]. apply H1; [reflexivity|].
  exists [], false, []. repeat split; [constructor|simpl; lia].
Qed.

Example ParseDecimal_rejects_lone_point :
  ParseDecimal (str ".") = (zero, Some ErrInvalidDecimal).
Proof. reflexivity. Qed.

Example ParseDecimal_sign_after_point :
  ParseDecimal (str ".-5") = (mkDecimal (-5) (-2), None).
Proof. reflexivity. Qed.

(** ** Printing what was parsed *)

Lemma firstn_length_app {A : Type} (l l' : list A) :
  firstn (List.length l) (l ++ l') = l.
Proof. induction l as [|a l IH]; simpl; [destruct l'|rewrite IH]; reflexivity. Qed.

Lemma skipn_length_app {A : Type} (l l' : list A) :
  skipn (List.length l) (l ++ l') = l'.
Proof. induction l as [|a l IH]; simpl; [reflexivity|exact IH]. Qed.

Lemma big_String_nonneg (v : Z) : 0 <= v -> big.String v = big.utoa v.
Proof. intros H. unfold big.String. destruct (Z.ltb_spec v 0); [lia|reflexivity]. Qed.

(** The integer and fractional parts that [String] cuts out of the digits
    of the coefficient are the ones that were parsed. *)
Lemma utoa_parts (ip fp : gostring) :
  allDigits ip -> canonicalInt ip -> allDigits fp -> fp <> [] ->
  let s := big.utoa (digitsValue (ip ++ fp)) in
  let n := Z.of_nat (List.length fp) in
  let len := Z.of_nat (List.length s) in
  (if len >? n
   then (firstn (Z.to_nat (len + - n)) s, skipn (Z.to_nat (len + - n)) s)
   else (str "0", Repeat "0" (n - len) ++ s))
  = (ip, fp).
Proof.
  intros Hi Hc Hf Hne. cbv zeta.
  destruct Hc as [->|(c & r & -> & Hnz)].
  - change (digitsValue (str "0" ++ fp)) with (digitsValue fp).
    destruct (utoa_pad fp Hf Hne) as [k Hk].
    set (s := big.utoa (digitsValue fp)) in *.
    assert (Hlen : List.length fp = (k + List.length s)%nat)
      by (rewrite Hk at 1; rewrite length_app, repeat_length; reflexivity).
    destruct (Z.gtb_spec (Z.of_nat (List.length s)) (Z.of_nat (List.length fp)));
      [lia|].
    unfold Repeat.
    replace (Z.to_nat (Z.of_nat (List.length fp) - Z.of_nat (List.length s)))
      with k by lia.
    rewrite <- Hk. reflexivity.
  - pose proof Hi as Hi'. unfold allDigits in Hi'. simpl in Hi'.
    apply andb_true_iff in Hi' as [Hcd Hr].
    change ((c :: r) ++ fp) with (c :: (r ++ fp)).
    rewrite utoa_nonzero_leading
      by (try assumption; apply allDigits_app; split; assumption).
    change (c :: (r ++ fp)) with ((c :: r) ++ fp).
    rewrite length_app.
    destruct (Z.gtb_spec (Z.of_nat (List.length (c :: r) + List.length fp))
                         (Z.of_nat (List.length fp)));
      [|simpl List.length in *; lia].
    replace (Z.to_nat (Z.of_nat (List.length (c :: r) + List.length fp)
                       + - Z.of_nat (List.length fp)))
      with (List.length (c :: r)) by lia.
    rewrite firstn_length_app, skipn_length_app. reflexivity.
Qed.

Lemma String_of_parsed_fraction (neg : bool) (ip fp : gostring) :
  allDigits ip -> canonicalInt ip -> allDigits fp -> fp <> [] ->
  (neg = true -> digitsValue (ip ++ fp) <> 0) ->
  String (mkDecimal (signed neg (digitsValue (ip ++ fp)))
                    (- Z.of_nat (List.length fp)))
  = signText neg ++ ip ++ "."%char :: fp.
Proof.
  intros Hi Hc Hf Hne Hneg.
  assert (Hv : 0 <= digitsValue (ip ++ fp))
    by (apply digitsValue_nonneg, allDigits_app; split; assumption).
  assert (Hn : 0 < Z.of_nat (List.length fp))
    by (destruct fp; [contradiction|simpl List.length; lia]).
  unfold String. cbn [exp value].
  destruct (Z.geb_spec (- Z.of_nat (List.length fp)) 0); [lia|].
  replace (Z.abs (signed neg (digitsValue (ip ++ fp))))
    with (digitsValue (ip ++ fp)) by (destruct neg; simpl; lia).
  rewrite big_String_nonneg by exact Hv.
  rewrite Z.opp_involutive.
  rewrite (utoa_parts ip fp Hi Hc Hf Hne).
  destruct fp as [|f0 fp']; [contradiction|].
  change (0 <? List.length (f0 :: fp'))%nat with true. cbv iota.
  change decSeparator with ["."%char].
  unfold big.Sign, SignNegative, signText.
  destruct neg; simpl signed.
  - specialize (Hneg eq_refl).
    rewrite Z.sgn_neg by lia. reflexivity.
  - destruct (Z.eqb_spec (Z.sgn (digitsValue (ip ++ f0 :: fp'))) (-1)) as [E|_];
      [|reflexivity].
    pose proof (Z.sgn_nonneg (digitsValue (ip ++ f0 :: fp'))). lia.
Qed.

(** C5. A text made of an optional minus sign, an integer part without
    extraneous leading zeros, a point and at least one and at most [2 ^ 31]
    fractional digits, where the minus sign is present only if some digit is
    not zero, is parsed and printed back exactly, trailing zeros included. *)
Theorem ParseDecimal_String_round_trip (neg : bool) (ip fp : gostring) :
  allDigits ip -> canonicalInt ip -> allDigits fp -> fp <> [] ->
  Z.of_nat (List.length fp) <= 2147483648 ->
  (neg = true -> digitsValue (ip ++ fp) <> 0) ->
  exists d,
    ParseDecimal (signText neg ++ ip ++ "."%char :: fp) = (d, None)
    /\ String d = signText neg ++ ip ++ "."%char :: fp.
Proof.
  intros Hi Hc Hf Hne Hlen Hneg.
  exists (mkDecimal (signed neg (digitsValue (ip ++ fp)))
                    (- Z.of_nat (List.length fp))).
  split.
  - apply ParseDecimal_decimalText. apply text_fraction; try assumption.
    + destruct neg; constructor.
    + destruct ip; [destruct fp; [contradiction|discriminate]|discriminate].
  - apply String_of_parsed_fraction; assumption.
Qed.

Lemma ParseDecimal_String_round_trip_witness :
  exists d,
    ParseDecimal (str "120.00") = (d, None) /\ String d = str "120.00".
Proof.
  apply (ParseDecimal_String_round_trip false (str "120") (str "00")).
  - reflexivity.
  - right. exists "1"%char, (str "20"). split; [reflexivity|discriminate].
  - reflexivity.
  - discriminate.
  - simpl. lia.
  - discriminate.
Defined.

Example String_keeps_trailing_zeros :
  String (fst (ParseDecimal (str "120.00"))) = str "120.00"
  /\ String (fst (ParseDecimal (str "120.00"))) <> str "120".
Proof. split; [reflexivity|discriminate]. Qed.

(** A sign in front of a canonical text is not always printed back: zero
    has no sign, and a plus sign is never printed. *)
Lemma String_drops_sign_of_zero :
  ~ (forall (sgn : gostring) (neg : bool) (ip fp : gostring),
       optSign sgn neg -> allDigits ip -> canonicalInt ip ->
       allDigits fp -> fp <> [] ->
       exists d,
         ParseDecimal (sgn ++ ip ++ "."%char :: fp) = (d, None)
         /\ String d = sgn ++ ip ++ "."%char :: fp).
Proof.
  intros H.
  destruct (H (str "-") true (str "0") (str "00")) as [d [Hp Hs]].
  - constructor.
  - reflexivity.
  - left. reflexivity.
  - reflexivity.
  - discriminate.
  - vm_compute in Hp. injection Hp as <-. vm_compute in Hs. discriminate.
Qed.

Example String_drops_plus_sign :
  String (fst (ParseDecimal (str "+1.0"))) = str "1.0".
Proof. reflexivity. Qed.

(** ** The binary form *)

Lemma lor_shiftl_add (a b k : Z) :
  0 <= k -> 0 <= a < 2 ^ k -> Z.lor a (Z.shiftl b k) = a + b * 2 ^ k.
Proof.
  intros Hk Ha.
  assert (Hland : Z.land a (Z.shiftl b k) = 0).
  { apply Z.bits_inj'. intros n Hn. rewrite Z.land_spec, Z.bits_0.
    destruct (Z.lt_ge_cases n k) as [Hlt|Hge].
    - rewrite Z.shiftl_spec_low by lia. apply andb_false_r.
    - destruct (Z.eq_dec a 0) as [->|Hnz]; [rewrite Z.bits_0; reflexivity|].
      rewrite (Z.bits_above_log2 a n); [reflexivity|lia|].
      assert (Z.log2 a < k) by (apply Z.log2_lt_pow2; lia). lia. }
  rewrite <- Z.lxor_lor, <- Z.add_nocarry_lxor by exact Hland.
  rewrite Z.shiftl_mul_pow2 by lia. reflexivity.
Qed.

Lemma byte_mod (z : Z) : byte z = z mod 256.
Proof. unfold byte. change 255 with (Z.ones 8). apply Z.land_ones. lia. Qed.

Lemma Uint32_PutUint32 (u : Z) :
  0 <= u < 4294967296 -> Uint32 (PutUint32 u) = u.
Proof.
  intros Hu. unfold Uint32, PutUint32.
  rewrite !byte_mod, !Z.shiftr_div_pow2 by lia.
  change (2 ^ 24) with 16777216. change (2 ^ 16) with 65536.
  change (2 ^ 8) with 256.
  pose proof (Z.mod_pos_bound u 256 ltac:(lia)).
  pose proof (Z.mod_pos_bound (u / 256) 256 ltac:(lia)).
  pose proof (Z.mod_pos_bound (u / 65536) 256 ltac:(lia)).
  pose proof (Z.mod_pos_bound (u / 16777216) 256 ltac:(lia)).
  rewrite (lor_shiftl_add _ _ 8) by (change (2 ^ 8) with 256; lia).
  rewrite (lor_shiftl_add _ _ 16) by (change (2 ^ 8) with 256;
                                      change (2 ^ 16) with 65536; lia).
  rewrite (lor_shiftl_add _ _ 24) by (change (2 ^ 8) with 256;
                                      change (2 ^ 16) with 65536;
                                      change (2 ^ 24) with 16777216; lia).
  change (2 ^ 24) with 16777216. change (2 ^ 16) with 65536.
  change (2 ^ 8) with 256.
  Z.div_mod_to_equations. lia.
Qed.

Lemma int32_uint32 (e : Z) : in_int32 e -> int32 (uint32 e) = e.
Proof.
  unfold in_int32, MinInt32, MaxInt32, int32, uint32. intros He.
  Z.div_mod_to_equations. lia.
Qed.

Lemma uint32_range (e : Z) : 0 <= uint32 e < 4294967296.
Proof. unfold uint32. apply Z.mod_pos_bound. lia. Qed.

(** The encoding of [math/big] decodes to the number encoded. *)
Lemma GobDecode_GobEncode (z : Z) :
  exists bs, big.GobEncode z = (bs, None) /\ big.GobDecode bs = (z, None).
Proof.
  unfold big.GobEncode. eexists. split; [reflexivity|].
  unfold big.GobDecode.
  destruct (Z.ltb_spec z 0) as [Hneg|Hpos].
  - change (Z.shiftr (Z.lor (Z.shiftl big.intGobVersion 1) 1) 1 =? big.intGobVersion)
      with true.
    change (Z.land (Z.lor (Z.shiftl big.intGobVersion 1) 1) 1 =? 0) with false.
    cbn [negb]. rewrite (ofDigits_digitsOf 256) by lia. f_equal. lia.
  - change (Z.shiftr (Z.shiftl big.intGobVersion 1) 1 =? big.intGobVersion)
      with true.
    change (Z.land (Z.shiftl big.intGobVersion 1) 1 =? 0) with true.
    cbn [negb]. rewrite (ofDigits_digitsOf 256) by lia. f_equal. lia.
Qed.

(** Whatever the encoding of the coefficient, as long as it decodes to what
    was encoded, the framing gives back the exponent and hands the rest of
    the bytes to the decoder of the coefficient. *)
Lemma UnmarshalBinary_MarshalBinary_generic
      (GobEncode : Z -> list Z * option error)
      (GobDecode : list Z -> Z * option error)
      (d : Decimal) :
  (forall z, exists bs, GobEncode z = (bs, None) /\ GobDecode bs = (z, None)) ->
  wf d ->
  exists data,
    MarshalBinary GobEncode d = (data, None)
    /\ firstn 4 data = PutUint32 (uint32 (exp d))
    /\ UnmarshalBinary GobDecode data = Ok (d, None).
Proof.
  intros Hcodec Hwf. destruct (Hcodec (value d)) as (bs & He & Hd).
  unfold MarshalBinary. rewrite He. eexists. split; [reflexivity|].
  split; [reflexivity|].
  unfold UnmarshalBinary.
  change (firstn 4 (PutUint32 (uint32 (exp d)) ++ bs))
    with (PutUint32 (uint32 (exp d))).
  change (skipn 4 (PutUint32 (uint32 (exp d)) ++ bs)) with bs.
  change (List.length (PutUint32 (uint32 (exp d)) ++ bs) <? 4)%nat with false.
  cbv iota. rewrite Hd, Uint32_PutUint32 by apply uint32_range.
  rewrite int32_uint32 by exact Hwf. destruct d; reflexivity.
Qed.

(** C10. Marshalling a decimal and unmarshalling the bytes succeeds and
    gives back the same coefficient and the same exponent; the bytes start
    with the exponent as four big-endian bytes. *)
Theorem UnmarshalBinary_MarshalBinary (d : Decimal) :
  wf d ->
  exists data,
    MarshalBinary big.GobEncode d = (data, None)
    /\ firstn 4 data = PutUint32 (uint32 (exp d))
    /\ UnmarshalBinary big.GobDecode data = Ok (d, None).
Proof.
  intros Hwf. apply UnmarshalBinary_MarshalBinary_generic; [|exact Hwf].
  apply GobDecode_GobEncode.
Qed.

Lemma UnmarshalBinary_MarshalBinary_witness :
  exists data,
    MarshalBinary big.GobEncode (mkDecimal (-12000) (-2)) = (data, None)
    /\ firstn 4 data = PutUint32 (uint32 (-2))
    /\ UnmarshalBinary big.GobDecode data = Ok (mkDecimal (-12000) (-2), None).
Proof.
  apply (UnmarshalBinary_MarshalBinary (mkDecimal (-12000) (-2))).
  unfold wf, in_int32, MinInt32, MaxInt32. simpl. lia.
Defined.

Example MarshalBinary_bytes :
  MarshalBinary big.GobEncode (mkDecimal (-12000) (-2))
  = ([255; 255; 255; 254; 3; 46; 224], None).
Proof. reflexivity. Qed.

(** ** Comparison *)

Lemma big_Cmp_scale (a b c : Z) :
  0 < c -> big.Cmp (a * c) (b * c) = big.Cmp a b.
Proof.
  intros Hc. unfold big.Cmp.
  destruct (Z.compare_spec (a * c) (b * c)); destruct (Z.compare_spec a b);
    try reflexivity; nia.
Qed.

Lemma big_Cmp_opp (a b : Z) : big.Cmp b a = - big.Cmp a b.
Proof.
  unfold big.Cmp. rewrite (Z.compare_antisym a b).
  destruct (a ?= b); reflexivity.
Qed.

Lemma Cmp_at_min (d d2 : Decimal) :
  Cmp d d2 =
  big.Cmp (value d * 10 ^ (exp d - Z.min (exp d) (exp d2)))
          (value d2 * 10 ^ (exp d2 - Z.min (exp d) (exp d2))).
Proof.
  unfold Cmp. rewrite min_spec.
  destruct (Z.eqb_spec (exp d) (exp d2)) as [E|E].
  - rewrite <- E, Z.min_id, Z.sub_diag. simpl. rewrite !Z.mul_1_r. reflexivity.
  - destruct (Z.eqb_spec (exp d) (Z.min (exp d) (exp d2))) as [E1|E1];
      cbn [negb].
    + destruct (Z.eqb_spec (exp d2) (Z.min (exp d) (exp d2))) as [E2|E2];
        [lia|]. cbn [negb].
      rewrite rescale_finer by lia. cbn [value].
      rewrite <- E1 at 2. rewrite Z.sub_diag. simpl (10 ^ 0).
      rewrite Z.mul_1_r. reflexivity.
    + rewrite rescale_finer by lia. cbn [value].
      replace (exp d2 - Z.min (exp d) (exp d2)) with 0 by lia.
      simpl (10 ^ 0). rewrite Z.mul_1_r. reflexivity.
Qed.

Lemma Cmp_scaled (d d2 : Decimal) (k : Z) :
  0 <= exp d + k -> 0 <= exp d2 + k ->
  Cmp d d2 = big.Cmp (scaled k d) (scaled k d2).
Proof.
  intros H1 H2. rewrite Cmp_at_min. unfold scaled.
  set (m := Z.min (exp d) (exp d2)).
  assert (Hm : 0 <= m + k) by (unfold m; lia).
  replace (exp d + k) with (exp d - m + (m + k)) by lia.
  replace (exp d2 + k) with (exp d2 - m + (m + k)) by lia.
  assert (H3 : 0 <= exp d - m) by (unfold m; lia).
  assert (H4 : 0 <= exp d2 - m) by (unfold m; lia).
  rewrite (Z.pow_add_r 10 (exp d - m)), (Z.pow_add_r 10 (exp d2 - m)) by lia.
  rewrite !Z.mul_assoc.
  symmetry. apply big_Cmp_scale. apply Z.pow_pos_nonneg; lia.
Qed.



Lemma Cmp_swap (d d2 : Decimal) : Cmp d2 d = - Cmp d d2.
Proof.
  rewrite !Cmp_at_min, (Z.min_comm (exp d2) (exp d)). apply big_Cmp_opp.
Qed.

(** X2. Swapping the operands of [Cmp] negates the result, for all
    exponents: the comparison is antisymmetric. *)
Theorem Cmp_antisymmetric (d d2 : Decimal) :
  Cmp d2 d = - Cmp d d2 /\ (Cmp d d2 <= 0 -> Cmp d2 d <= 0 -> Cmp d d2 = 0).
Proof. split; [apply Cmp_swap|]. rewrite (Cmp_swap d d2). lia. Qed.

Lemma Cmp_antisymmetric_witness :
  Cmp (mkDecimal 12000 (-2)) (mkDecimal 120 0)
  = - Cmp (mkDecimal 120 0) (mkDecimal 12000 (-2))
  /\ Cmp (mkDecimal 120 0) (mkDecimal 12000 (-2)) = 0.
Proof.
  split.
  - apply (proj1 (Cmp_antisymmetric (mkDecimal 120 0) (mkDecimal 12000 (-2)))).
  - apply (proj2 (Cmp_antisymmetric (mkDecimal 120 0) (mkDecimal 12000 (-2))));
      vm_compute; discriminate.
Defined.

Lemma big_Cmp_le (a b : Z) : big.Cmp a b <= 0 <-> a <= b.
Proof. unfold big.Cmp. destruct (Z.compare_spec a b); lia. Qed.

Lemma Cmp_le_trans (a b c : Decimal) :
  Cmp a b <= 0 -> Cmp b c <= 0 -> Cmp a c <= 0.
Proof.
  set (k := - Z.min (exp a) (Z.min (exp b) (exp c))).
  rewrite (Cmp_scaled a b k), (Cmp_scaled b c k), (Cmp_scaled a c k)
    by (unfold k; lia).
  rewrite !big_Cmp_le. lia.
Qed.

(** X3. [Cmp] is transitive: if the first decimal is not above the second
    and the second not above the third, the first is not above the third,
    whatever the three exponents. *)
Theorem Cmp_transitive (a b c : Decimal) :
  Cmp a b <= 0 -> Cmp b c <= 0 -> Cmp a c <= 0.
Proof. apply Cmp_le_trans. Qed.

Lemma Cmp_transitive_witness :
  Cmp (mkDecimal (-10) (-1)) (mkDecimal 12000 (-2)) <= 0.
Proof.
  apply (Cmp_transitive (mkDecimal (-10) (-1)) (mkDecimal 120 0)
                        (mkDecimal 12000 (-2)));
    vm_compute; discriminate.
Defined.

Lemma Equal_scaled (d d2 : Decimal) (k : Z) :
  0 <= exp d + k -> 0 <= exp d2 + k ->
  Equal d d2 = true <-> scaled k d = scaled k d2.
Proof.
  intros H1 H2. unfold Equal. rewrite (Cmp_scaled d d2 k H1 H2).
  unfold big.Cmp. destruct (Z.compare_spec (scaled k d) (scaled k d2));
    split; intros; try lia; try discriminate; reflexivity.
Qed.

Lemma pow10_split (a m k : Z) :
  m <= a -> 0 <= m + k -> 10 ^ (a + k) = 10 ^ (a - m) * 10 ^ (m + k).
Proof.
  intros H1 H2. rewrite <- Z.pow_add_r by lia. f_equal. lia.
Qed.

Lemma scaled_rescale_finer (d : Decimal) (e k : Z) :
  e <= exp d -> 0 <= e + k -> scaled k (rescale d e) = scaled k d.
Proof.
  intros He Hk. rewrite rescale_finer by exact He. unfold scaled.
  cbn [value exp]. rewrite (pow10_split (exp d) e k) by lia. ring.
Qed.

(** X4. [Equal] does not see trailing zeros: a decimal rescaled to a finer
    exponent is equal to the decimal it comes from, as [120.0000] is to
    [120.00]; and [Equal] is reflexive, symmetric and transitive. *)
Theorem Equal_ignores_trailing_zeros (a b c : Decimal) (e : Z) :
  (e <= exp a -> Equal (rescale a e) a = true /\ Equal a (rescale a e) = true)
  /\ Equal a a = true
  /\ Equal a b = Equal b a
  /\ (Equal a b = true -> Equal b c = true -> Equal a c = true).
Proof.
  split; [intros He; split|split; [|split]].
  - apply (Equal_scaled _ _ (- e));
      rewrite ?exp_rescale; try lia.
    apply scaled_rescale_finer; lia.
  - apply (Equal_scaled _ _ (- e)); rewrite ?exp_rescale; try lia.
    symmetry. apply scaled_rescale_finer; lia.
  - apply (Equal_scaled _ _ (- exp a)); lia.
  - unfold Equal. rewrite (Cmp_swap a b).
    destruct (Z.eqb_spec (Cmp a b) 0), (Z.eqb_spec (- Cmp a b) 0);
      try reflexivity; lia.
  - set (k := - Z.min (exp a) (Z.min (exp b) (exp c))).
    rewrite (Equal_scaled a b k), (Equal_scaled b c k), (Equal_scaled a c k)
      by (unfold k; lia).
    congruence.
Qed.

Lemma Equal_ignores_trailing_zeros_witness :
  Equal (mkDecimal 1200000 (-4)) (mkDecimal 12000 (-2)) = true
  /\ Equal (mkDecimal 12000 (-2)) (mkDecimal 1200000 (-4)) = true.
Proof.
  apply (proj1 (Equal_ignores_trailing_zeros
                  (mkDecimal 12000 (-2)) zero zero (-4))).
  simpl. lia.
Defined.

Lemma IsZero_value (d : Decimal) : IsZero d = true <-> value d = 0.
Proof.
  change (IsZero d) with (Equal d zero).
  rewrite (Equal_scaled d zero (- Z.min (exp d) 1))
    by (unfold zero, buildDecimal; cbn [exp]; lia).
  unfold scaled. cbn [value exp zero buildDecimal]. rewrite Z.mul_0_l.
  assert (0 < 10 ^ (exp d + - Z.min (exp d) 1))
    by (apply Z.pow_pos_nonneg; lia).
  split; intros; nia.
Qed.


(** ** Addition and subtraction *)

Lemma Add_at_min (d d2 : Decimal) :
  Add d d2 =
  mkDecimal (value d * 10 ^ (exp d - Z.min (exp d) (exp d2))
             + value d2 * 10 ^ (exp d2 - Z.min (exp d) (exp d2)))
            (Z.min (exp d) (exp d2)).
Proof.
  unfold Add. rewrite min_spec, !rescale_finer by lia. reflexivity.
Qed.

Lemma Sub_at_min (d d2 : Decimal) :
  Sub d d2 =
  mkDecimal (value d * 10 ^ (exp d - Z.min (exp d) (exp d2))
             - value d2 * 10 ^ (exp d2 - Z.min (exp d) (exp d2)))
            (Z.min (exp d) (exp d2)).
Proof.
  unfold Sub. rewrite min_spec, !rescale_finer by lia. reflexivity.
Qed.

(** X6. [Add] and [Sub] are exact: the result is at the smaller of the two
    exponents and denotes the sum, or the difference, of the numbers that
    the operands denote. *)
Theorem Add_Sub_exact (d d2 : Decimal) (k : Z) :
  0 <= exp d + k -> 0 <= exp d2 + k ->
  exp (Add d d2) = Z.min (exp d) (exp d2)
  /\ exp (Sub d d2) = Z.min (exp d) (exp d2)
  /\ scaled k (Add d d2) = scaled k d + scaled k d2
  /\ scaled k (Sub d d2) = scaled k d - scaled k d2.
Proof.
  intros H1 H2. rewrite Add_at_min, Sub_at_min. unfold scaled.
  cbn [value exp]. set (m := Z.min (exp d) (exp d2)).
  rewrite (pow10_split (exp d) m k), (pow10_split (exp d2) m k)
    by (unfold m; lia).
  repeat split; ring.
Qed.

Lemma Add_Sub_exact_witness :
  exp (Add (mkDecimal 12 (-1)) (mkDecimal 345 (-3))) = -3
  /\ exp (Sub (mkDecimal 12 (-1)) (mkDecimal 345 (-3))) = -3
  /\ scaled 3 (Add (mkDecimal 12 (-1)) (mkDecimal 345 (-3))) = 1200 + 345
  /\ scaled 3 (Sub (mkDecimal 12 (-1)) (mkDecimal 345 (-3))) = 1200 - 345.
Proof.
  apply (Add_Sub_exact (mkDecimal 12 (-1)) (mkDecimal 345 (-3)) 3); simpl; lia.
Defined.

(** X7. [Add] is commutative and associative, as decimals: the same
    coefficient and the same exponent on both sides. *)
Theorem Add_commutative_associative (a b c : Decimal) :
  Add a b = Add b a /\ Add (Add a b) c = Add a (Add b c).
Proof.
  split.
  - rewrite !Add_at_min, (Z.min_comm (exp b) (exp a)). f_equal. ring.
  - rewrite (Add_at_min (Add a b) c), (Add_at_min a (Add b c)).
    rewrite (Add_at_min a b), (Add_at_min b c). cbn [value exp].
    rewrite Z.min_assoc. f_equal.
    set (m := Z.min (Z.min (exp a) (exp b)) (exp c)).
    rewrite !Z.mul_add_distr_r, <- !Z.mul_assoc, <- !Z.pow_add_r
      by (unfold m; lia).
    rewrite Z.add_assoc.
    repeat (f_equal; try lia).
Qed.

(** X8. [Sub] is [Add] of the negation, a decimal minus itself is zero at
    its own exponent, and negating twice or taking [Abs] twice changes
    nothing more. *)
Theorem Sub_Neg_Abs_laws (d d2 : Decimal) :
  Sub d d2 = Add d (Neg d2)
  /\ Sub d d = mkDecimal 0 (exp d)
  /\ IsZero (Add d (Neg d)) = true
  /\ Neg (Neg d) = d
  /\ Abs (Abs d) = Abs d
  /\ Abs (Neg d) = Abs d.
Proof.
  repeat split.
  - rewrite Sub_at_min, Add_at_min. unfold Neg. cbn [value exp]. f_equal. ring.
  - rewrite Sub_at_min, Z.min_id. f_equal. ring.
  - apply IsZero_value.
    rewrite Add_at_min. unfold Neg. cbn [value exp]. ring.
  - unfold Neg. cbn [value exp]. rewrite Z.opp_involutive. destruct d; reflexivity.
  - unfold Abs. cbn [value exp]. rewrite Z.abs_idemp. reflexivity.
  - unfold Abs, Neg. cbn [value exp]. rewrite Z.abs_opp. reflexivity.
Qed.

(** ** Smallest and largest of several decimals *)

Lemma MinDecimal_fold (rest : list Decimal) :
  forall first,
    In (MinDecimal first rest) (first :: rest)
    /\ Cmp (MinDecimal first rest) first <= 0
    /\ (forall x, In x rest -> Cmp (MinDecimal first rest) x <= 0).
Proof.
  unfold MinDecimal.
  induction rest as [|item rest IH]; intros first; cbn [fold_left].
  - split; [left; reflexivity|]. split; [|intros x []].
    rewrite (Cmp_scaled first first (- exp first)) by lia.
    apply big_Cmp_le. lia.
  - destruct (Z.ltb_spec (Cmp item first) 0) as [Hlt|Hge].
    + destruct (IH item) as (Hin & Hle & Hall).
      split; [right; exact Hin|]. split.
      * apply (Cmp_le_trans _ item); [exact Hle|lia].
      * intros x [<-|Hx]; [exact Hle|apply Hall, Hx].
    + destruct (IH first) as (Hin & Hle & Hall).
      split; [destruct Hin as [Hin|Hin]; [left; exact Hin|right; right; exact Hin]|].
      split; [exact Hle|].
      intros x [<-|Hx]; [|apply Hall, Hx].
      apply (Cmp_le_trans _ first); [exact Hle|].
      rewrite (Cmp_swap item first). lia.
Qed.

Lemma MaxDecimal_fold (rest : list Decimal) :
  forall first,
    In (MaxDecimal first rest) (first :: rest)
    /\ Cmp first (MaxDecimal first rest) <= 0
    /\ (forall x, In x rest -> Cmp x (MaxDecimal first rest) <= 0).
Proof.
  unfold MaxDecimal.
  induction rest as [|item rest IH]; intros first; cbn [fold_left].
  - split; [left; reflexivity|]. split; [|intros x []].
    rewrite (Cmp_scaled first first (- exp first)) by lia.
    apply big_Cmp_le. lia.
  - destruct (Z.gtb_spec (Cmp item first) 0) as [Hgt|Hle'].
    + destruct (IH item) as (Hin & Hle & Hall).
      split; [right; exact Hin|]. split.
      * apply (Cmp_le_trans _ item); [|exact Hle].
        rewrite (Cmp_swap item first). lia.
      * intros x [<-|Hx]; [exact Hle|apply Hall, Hx].
    + destruct (IH first) as (Hin & Hle & Hall).
      split; [destruct Hin as [Hin|Hin]; [left; exact Hin|right; right; exact Hin]|].
      split; [exact Hle|].
      intros x [<-|Hx]; [|apply Hall, Hx].
      apply (Cmp_le_trans _ first); [lia|exact Hle].
Qed.

(** X9. [MinDecimal] returns one of its arguments, and none of the
    arguments is below it; [MaxDecimal] returns one of its arguments, and
    none is above it. *)
Theorem MinDecimal_MaxDecimal_bounds (first : Decimal) (rest : list Decimal) :
  (In (MinDecimal first rest) (first :: rest)
   /\ forall x, In x (first :: rest) -> Cmp (MinDecimal first rest) x <= 0)
  /\ (In (MaxDecimal first rest) (first :: rest)
      /\ forall x, In x (first :: rest) -> Cmp x (MaxDecimal first rest) <= 0).
Proof.
  destruct (MinDecimal_fold rest first) as (Hi & Hf & Hr).
  destruct (MaxDecimal_fold rest first) as (Hi' & Hf' & Hr').
  repeat split; try assumption.
  - intros x [<-|Hx]; [exact Hf|apply Hr, Hx].
  - intros x [<-|Hx]; [exact Hf'|apply Hr', Hx].
Qed.

Example MinDecimal_example :
  MinDecimal (mkDecimal 10 (-1)) [mkDecimal (-10) (-1); mkDecimal 5 0]
  = mkDecimal (-10) (-1).
Proof. reflexivity. Qed.

(** Among arguments that are equal as numbers, both keep the first one. *)
Example MinDecimal_keeps_first_of_equals :
  MinDecimal (mkDecimal 10 (-1)) [mkDecimal 1 0] = mkDecimal 10 (-1)
  /\ MaxDecimal (mkDecimal 10 (-1)) [mkDecimal 1 0] = mkDecimal 10 (-1).
Proof. split; reflexivity. Qed.

(** ** Money *)

(** X10. [Equal] on money is symmetric; it is false as soon as the
    currencies differ, and otherwise it is [Equal] on the amounts, so it
    does not see trailing zeros either. *)
Theorem MoneyEqual_symmetric (x y : Money) :
  MoneyEqual x y = MoneyEqual y x
  /\ (CurrencyOf x <> CurrencyOf y -> MoneyEqual x y = false)
  /\ (CurrencyOf x = CurrencyOf y ->
      MoneyEqual x y = Equal (Amount x) (Amount y)).
Proof.
  unfold MoneyEqual, gostring_eqb.
  destruct (list_eq_dec ascii_dec (CurrencyOf x) (CurrencyOf y)) as [E|E];
    destruct (list_eq_dec ascii_dec (CurrencyOf y) (CurrencyOf x)) as [E'|E'];
    try congruence; cbn [negb]; repeat split; try congruence.
  unfold Equal. rewrite (Cmp_swap (Amount x) (Amount y)).
  destruct (Z.eqb_spec (Cmp (Amount x) (Amount y)) 0),
           (Z.eqb_spec (- Cmp (Amount x) (Amount y)) 0);
    try reflexivity; lia.
Qed.

Lemma MoneyEqual_symmetric_witness :
  MoneyEqual (mkMoney (mkDecimal 1200 (-1)) (str "CHF"))
             (mkMoney (mkDecimal 120 0) (str "EUR")) = false
  /\ MoneyEqual (mkMoney (mkDecimal 1200 (-1)) (str "CHF"))
                (mkMoney (mkDecimal 120 0) (str "CHF"))
     = Equal (mkDecimal 1200 (-1)) (mkDecimal 120 0).
Proof.
  split.
  - apply (proj1 (proj2 (MoneyEqual_symmetric
                           (mkMoney (mkDecimal 1200 (-1)) (str "CHF"))
                           (mkMoney (mkDecimal 120 0) (str "EUR"))))).
    discriminate.
  - apply (proj2 (proj2 (MoneyEqual_symmetric
                           (mkMoney (mkDecimal 1200 (-1)) (str "CHF"))
                           (mkMoney (mkDecimal 120 0) (str "CHF"))))).
    reflexivity.
Defined.

(** ** Rounding to places: nearest, up and down *)

Lemma dropDigit_nonneg (x : Z) : 0 <= x -> dropDigit x = (x + 5) / 10.
Proof.
  intros Hx. unfold dropDigit.
  destruct (Z.eqb_spec (Z.sgn x) (-1)) as [E|_];
    [pose proof (Z.sgn_nonneg x); lia|].
  assert (Hq : 0 <= (x + 5) / 10) by (apply Z.div_pos; lia).
  destruct (Z.eqb_spec (Z.sgn ((x + 5) / 10)) (-1)) as [E|_];
    [pose proof (Z.sgn_nonneg ((x + 5) / 10)); lia|].
  reflexivity.
Qed.

Lemma dropDigit_quot_nonneg (u P : Z) :
  0 < P -> 0 <= u -> dropDigit (Z.quot u P) = (u + 5 * P) / (10 * P).
Proof.
  intros HP Hu. rewrite Z.quot_div_nonneg by lia.
  rewrite dropDigit_nonneg by (apply Z.div_pos; lia).
  rewrite <- Z.div_add by lia. rewrite Z.div_div by lia.
  f_equal. ring.
Qed.

Lemma dropDigit_quot_nonpos (u P : Z) :
  0 < P -> u <= 0 -> dropDigit (Z.quot u P) = - ((- u + 5 * P) / (10 * P)).
Proof.
  intros HP Hu. rewrite <- (Z.opp_involutive u) at 1.
  rewrite Z.quot_opp_l, dropDigit_opp by lia.
  rewrite dropDigit_quot_nonneg by lia. reflexivity.
Qed.

Lemma Round_fine (d : Decimal) (p : Z) :
  MinInt32 < p <= MaxInt32 -> exp d < - p ->
  Round d p
  = mkDecimal (dropDigit (Z.quot (value d) (10 ^ (- p - 1 - exp d)))) (- p).
Proof.
  intros Hp He. rewrite Round_dropDigit.
  rewrite (int32_id (- p)) by (unfold in_int32, MinInt32, MaxInt32 in *; lia).
  rewrite (int32_id (- p - 1)) by (unfold in_int32, MinInt32, MaxInt32 in *; lia).
  replace (- p - 1 + 1) with (- p) by lia.
  rewrite (int32_id (- p)) by (unfold in_int32, MinInt32, MaxInt32 in *; lia).
  rewrite rescale_coarser by lia. reflexivity.
Qed.

Lemma Round_coarse (d : Decimal) (p : Z) :
  MinInt32 < p <= MaxInt32 -> - p <= exp d ->
  Round d p = mkDecimal (value d * 10 ^ (exp d + p)) (- p).
Proof.
  intros Hp He. rewrite Round_dropDigit.
  rewrite (int32_id (- p)) by (unfold in_int32, MinInt32, MaxInt32 in *; lia).
  rewrite (int32_id (- p - 1)) by (unfold in_int32, MinInt32, MaxInt32 in *; lia).
  replace (- p - 1 + 1) with (- p) by lia.
  rewrite (int32_id (- p)) by (unfold in_int32, MinInt32, MaxInt32 in *; lia).
  rewrite rescale_finer by lia. cbn [value]. f_equal.
  replace (exp d - (- p - 1)) with (exp d + p + 1) by lia.
  rewrite Z.pow_add_r by lia. change (10 ^ 1) with 10.
  rewrite Z.mul_assoc. apply dropDigit_tenfold.
Qed.

Lemma pow10_succ (k : Z) : 0 <= k -> 10 ^ (k + 1) = 10 * 10 ^ k.
Proof. intros Hk. rewrite Z.pow_add_r by lia. change (10 ^ 1) with 10. ring. Qed.

(** The coefficient that [Round] keeps is within half a unit of the
    argument, and at exactly half a unit it is the one away from zero. *)
Lemma dropDigit_quot_nearest (v P : Z) :
  0 < P ->
  let w := dropDigit (Z.quot v P) in
  2 * Z.abs (w * (10 * P) - v) <= 10 * P
  /\ (2 * Z.abs (w * (10 * P) - v) = 10 * P -> Z.abs v < Z.abs (w * (10 * P))).
Proof.
  intros HP. cbv zeta.
  destruct (Z.le_gt_cases 0 v) as [Hv|Hv].
  - rewrite dropDigit_quot_nonneg by lia.
    pose proof (Z.div_mod (v + 5 * P) (10 * P) ltac:(lia)) as E.
    pose proof (Z.mod_pos_bound (v + 5 * P) (10 * P) ltac:(lia)) as B.
    assert (0 <= (v + 5 * P) / (10 * P)) by (apply Z.div_pos; lia).
    split; nia.
  - rewrite dropDigit_quot_nonpos by lia.
    pose proof (Z.div_mod (- v + 5 * P) (10 * P) ltac:(lia)) as E.
    pose proof (Z.mod_pos_bound (- v + 5 * P) (10 * P) ltac:(lia)) as B.
    assert (0 <= (- v + 5 * P) / (10 * P)) by (apply Z.div_pos; lia).
    split; nia.
Qed.

(** X11. [Round] to [p] places gives, at exponent [-p], the multiple of
    [10 ^ -p] nearest to the argument, and at exactly half way the one of
    greater magnitude; a decimal that has no digit beyond that place is
    only rescaled. *)
Theorem Round_nearest_ties_away (d : Decimal) (p : Z) :
  MinInt32 < p <= MaxInt32 ->
  exp (Round d p) = - p
  /\ (- p <= exp d -> Round d p = rescale d (- p))
  /\ (exp d < - p ->
      let Q := 10 ^ (- p - exp d) in
      let w := value (Round d p) in
      2 * Z.abs (w * Q - value d) <= Q
      /\ (2 * Z.abs (w * Q - value d) = Q -> Z.abs (value d) < Z.abs (w * Q))).
Proof.
  intros Hp. split; [|split].
  - destruct (Z.le_gt_cases (- p) (exp d)).
    + rewrite Round_coarse by assumption. reflexivity.
    + rewrite Round_fine by assumption. reflexivity.
  - intros He. rewrite Round_coarse, rescale_finer by assumption.
    f_equal. f_equal. f_equal. lia.
  - intros He. rewrite Round_fine by assumption. cbn [value].
    replace (- p - exp d) with (- p - 1 - exp d + 1) by lia.
    rewrite pow10_succ by lia.
    apply dropDigit_quot_nearest. apply Z.pow_pos_nonneg; lia.
Qed.

Lemma Round_nearest_ties_away_witness :
  exp (Round (mkDecimal 11115 (-5)) 4) = -4
  /\ 2 * Z.abs (value (Round (mkDecimal 11115 (-5)) 4) * 10 - 11115) <= 10
  /\ (2 * Z.abs (value (Round (mkDecimal 11115 (-5)) 4) * 10 - 11115) = 10 ->
      Z.abs 11115 < Z.abs (value (Round (mkDecimal 11115 (-5)) 4) * 10)).
Proof.
  assert (Hp : MinInt32 < 4 <= MaxInt32) by (unfold MinInt32, MaxInt32; lia).
  destruct (Round_nearest_ties_away (mkDecimal 11115 (-5)) 4 Hp)
    as (H1 & _ & H3).
  split; [exact H1|]. apply H3. simpl. lia.
Defined.

Lemma Equal_Round_coarse (d : Decimal) (p : Z) :
  MinInt32 < p <= MaxInt32 -> - p <= exp d -> Equal (Round d p) d = true.
Proof.
  intros Hp He. rewrite Round_coarse by assumption.
  apply (Equal_scaled _ _ p); cbn [exp]; try lia.
  unfold scaled. cbn [value exp]. replace (- p + p) with 0 by lia.
  simpl (10 ^ 0). ring.
Qed.








Example RoundUp_RoundDown_examples :
  RoundUp (mkDecimal 31416 (-4)) 2 = mkDecimal 315 (-2)
  /\ RoundDown (mkDecimal 31416 (-4)) 2 = mkDecimal 314 (-2)
  /\ RoundUp (mkDecimal (-31416) (-4)) 2 = mkDecimal (-314) (-2)
  /\ RoundDown (mkDecimal (-31416) (-4)) 2 = mkDecimal (-315) (-2).
Proof. repeat split; vm_compute; reflexivity. Qed.

(** ** Floor, ceiling and truncation *)

Lemma Floor_at_nonpositive_exponent (d : Decimal) :
  exp d <= 0 -> Floor d = mkDecimal (value d / 10 ^ (- exp d)) 0.
Proof.
  intros He. unfold Floor, big.Div. rewrite big_Exp_pow by lia.
  assert (Hp : 0 < 10 ^ (- exp d)) by (apply Z.pow_pos_nonneg; lia).
  rewrite Z.abs_eq, Z.sgn_pos, Z.mul_1_l by lia. reflexivity.
Qed.

Lemma Ceil_at_nonpositive_exponent (d : Decimal) :
  exp d <= 0 ->
  Ceil d = mkDecimal (if value d mod 10 ^ (- exp d) =? 0
                      then value d / 10 ^ (- exp d)
                      else value d / 10 ^ (- exp d) + 1) 0.
Proof.
  intros He. unfold Ceil, big.DivMod, big.Div, big.Mod.
  rewrite big_Exp_pow by lia.
  assert (Hp : 0 < 10 ^ (- exp d)) by (apply Z.pow_pos_nonneg; lia).
  rewrite Z.abs_eq, Z.sgn_pos, Z.mul_1_l, big_Cmp_zero by lia.
  destruct (_ =? 0); reflexivity.
Qed.

(** X14. For a decimal whose exponent is not positive, negative decimals
    included, [Floor] is the greatest integer not above it and [Ceil] the
    least integer not below it, both at exponent 0; they coincide exactly
    when the decimal is an integer and differ by one otherwise.  A positive
    exponent is dropped by both. *)
Theorem Floor_Ceil_bracket (d : Decimal) :
  (exp d <= 0 ->
   let P := 10 ^ (- exp d) in
   exp (Floor d) = 0 /\ exp (Ceil d) = 0
   /\ value (Floor d) * P <= value d < (value (Floor d) + 1) * P
   /\ (value (Ceil d) - 1) * P < value d <= value (Ceil d) * P
   /\ (value d mod P = 0 -> Ceil d = Floor d)
   /\ (value d mod P <> 0 -> value (Ceil d) = value (Floor d) + 1))
  /\ (0 < exp d ->
      Floor d = mkDecimal (value d) 0 /\ Ceil d = mkDecimal (value d) 0).
Proof.
  split.
  - intros He P.
    rewrite Floor_at_nonpositive_exponent, Ceil_at_nonpositive_exponent
      by exact He.
    fold P. cbn [value exp].
    assert (Hp : 0 < P) by (apply Z.pow_pos_nonneg; lia).
    pose proof (Z.div_mod (value d) P ltac:(lia)) as E.
    pose proof (Z.mod_pos_bound (value d) P Hp) as B.
    destruct (Z.eqb_spec (value d mod P) 0) as [Hz|Hnz];
      repeat split; try reflexivity; try nia; intros; try contradiction;
      reflexivity.
  - intros He. unfold Floor, Ceil, big.DivMod, big.Div, big.Mod, big.Exp.
    destruct (Z.leb_spec (- exp d) 0); [|lia].
    change (Z.abs 1) with 1. change (Z.sgn 1) with 1.
    rewrite Z.mod_1_r, Z.div_1_r, Z.mul_1_l. split; reflexivity.
Qed.

Lemma Floor_Ceil_bracket_witness :
  exp (Floor (mkDecimal (-15) (-1))) = 0 /\ exp (Ceil (mkDecimal (-15) (-1))) = 0
  /\ value (Floor (mkDecimal (-15) (-1))) * 10 <= -15
     < (value (Floor (mkDecimal (-15) (-1))) + 1) * 10
  /\ (value (Ceil (mkDecimal (-15) (-1))) - 1) * 10 < -15
     <= value (Ceil (mkDecimal (-15) (-1))) * 10
  /\ (-15 mod 10 = 0 -> Ceil (mkDecimal (-15) (-1)) = Floor (mkDecimal (-15) (-1)))
  /\ (-15 mod 10 <> 0 ->
      value (Ceil (mkDecimal (-15) (-1))) = value (Floor (mkDecimal (-15) (-1))) + 1).
Proof.
  apply (proj1 (Floor_Ceil_bracket (mkDecimal (-15) (-1)))). simpl. lia.
Defined.

Lemma Truncate_fine (d : Decimal) (precision : Z) :
  0 <= precision <= MaxInt32 -> exp d < - precision ->
  Truncate d precision
  = mkDecimal (Z.quot (value d) (10 ^ (- precision - exp d))) (- precision).
Proof.
  intros Hp He. unfold Truncate.
  rewrite (int32_id (- precision))
    by (unfold in_int32, MinInt32, MaxInt32 in *; lia).
  destruct (Z.geb_spec precision 0); [|lia].
  destruct (Z.gtb_spec (- precision) (exp d)); [|lia].
  cbn [andb]. apply rescale_coarser. lia.
Qed.

(** X15. [Truncate] to a precision that is not negative cuts the digits
    beyond that place towards zero: the result is at exponent
    [-precision], keeps the sign, and is less than one unit of that place
    nearer to zero than the argument.  A decimal without digits beyond that
    place, and every decimal when the precision is negative, is returned
    unchanged; truncating twice is truncating once. *)
Theorem Truncate_towards_zero (d : Decimal) (precision : Z) :
  precision <= MaxInt32 ->
  (precision < 0 \/ - precision <= exp d -> Truncate d precision = d)
  /\ (0 <= precision -> exp d < - precision ->
      let Q := 10 ^ (- precision - exp d) in
      let c := value (Truncate d precision) in
      exp (Truncate d precision) = - precision
      /\ Z.abs (c * Q) <= Z.abs (value d) < Z.abs (c * Q) + Q
      /\ 0 <= c * value d)
  /\ Truncate (Truncate d precision) precision = Truncate d precision.
Proof.
  intros Hmax.
  assert (Hsame : precision < 0 \/ - precision <= exp d ->
                  Truncate d precision = d).
  { intros H. unfold Truncate.
    destruct (Z.geb_spec precision 0); [|reflexivity].
    rewrite (int32_id (- precision))
      by (unfold in_int32, MinInt32, MaxInt32 in *; lia).
    destruct (Z.gtb_spec (- precision) (exp d)); [lia|reflexivity]. }
  split; [exact Hsame|]. split.
  - intros Hp He Q c. unfold c. rewrite Truncate_fine by lia.
    cbn [value exp]. fold Q.
    assert (HQ : 0 < Q) by (apply Z.pow_pos_nonneg; lia).
    pose proof (Z.quot_rem' (value d) Q) as E.
    split; [reflexivity|].
    destruct (Z.le_gt_cases 0 (value d)) as [Hv|Hv].
    + pose proof (Z.rem_bound_pos (value d) Q Hv HQ).
      pose proof (Z.quot_pos (value d) Q Hv HQ).
      assert (0 <= Z.quot (value d) Q * Q) by nia.
      split; [lia|nia].
    + pose proof (Z.rem_bound_pos_neg (value d) Q HQ ltac:(lia)) as B.
      assert (Hq : Z.quot (value d) Q <= 0).
      { rewrite <- (Z.opp_involutive (value d)), Z.quot_opp_l by lia.
        pose proof (Z.quot_pos (- value d) Q ltac:(lia) HQ). lia. }
      assert (Z.quot (value d) Q * Q <= 0) by nia.
      split; [lia|nia].
  - destruct (Z.lt_ge_cases precision 0) as [Hn|Hp].
    + rewrite !Hsame by (left; exact Hn). reflexivity.
    + destruct (Z.le_gt_cases (- precision) (exp d)) as [Hc|Hf].
      * rewrite !Hsame by (right; exact Hc). reflexivity.
      * rewrite (Truncate_fine d) by lia.
        unfold Truncate at 1. cbn [exp].
        rewrite (int32_id (- precision))
          by (unfold in_int32, MinInt32, MaxInt32 in *; lia).
        destruct (Z.gtb_spec (- precision) (- precision)); [lia|].
        rewrite andb_false_r. reflexivity.
Qed.

Lemma Truncate_towards_zero_witness :
  exp (Truncate (mkDecimal (-11115) (-5)) 2) = -2
  /\ Z.abs (value (Truncate (mkDecimal (-11115) (-5)) 2) * 1000)
     <= Z.abs (-11115)
     < Z.abs (value (Truncate (mkDecimal (-11115) (-5)) 2) * 1000) + 1000
  /\ 0 <= value (Truncate (mkDecimal (-11115) (-5)) 2) * -11115.
Proof.
  assert (Hmax : 2 <= MaxInt32) by (unfold MaxInt32; lia).
  destruct (Truncate_towards_zero (mkDecimal (-11115) (-5)) 2 Hmax)
    as (_ & H & _).
  apply H; simpl; lia.
Defined.

(** ** Remainder and exact quotients *)

Lemma quot_scaled_bump_neg (A U P : Z) :
  0 < - U < P ->
  Z.quot (if 2 * Z.abs (Z.rem (A * P) U) <? Z.abs U
          then Z.quot (A * P) U else Z.quot (A * P) U + 1) P
  = Z.quot A U.
Proof.
  intros HU. pose proof (quot_scaled_bump (- A) (- U) P HU) as H.
  replace (- A * P) with (- (A * P)) in H by ring.
  rewrite Z.rem_opp_opp, !Z.quot_opp_opp, !Z.abs_opp in H by lia.
  exact H.
Qed.

Lemma Mod_same_exp_signed (A U e : Z) :
  U <> 0 -> Z.abs U < 10 ^ 16 ->
  in_int32 (e - 16) -> in_int32 e ->
  Mod (mkDecimal A e) (mkDecimal U e) = Ok (mkDecimal (Z.rem A U) e).
Proof.
  intros Hnz HU He16 He.
  destruct (Z.lt_ge_cases 0 U) as [Hpos|Hneg];
    [apply Mod_same_exp; [lia|assumption..]|].
  unfold Mod.
  rewrite Div_scaled_dividend; cbn [value exp];
    try (unfold in_int32, MinInt32, MaxInt32 in *; lia).
  replace (e - e + 16) with 16 by lia. cbv zeta. cbn [bind].
  set (q' := if _ <? _ then _ else _).
  assert (HT : Truncate (mkDecimal q' (-16)) 0 = mkDecimal (Z.quot q' (10 ^ 16)) 0).
  { unfold Truncate. cbn [exp].
    change ((0 >=? 0) && (int32 (- 0) >? -16)) with true. cbv iota.
    change (int32 (- 0)) with 0.
    rewrite rescale_coarser by (cbn [exp]; lia). reflexivity. }
  rewrite HT. unfold q'. rewrite quot_scaled_bump_neg by lia.
  rewrite Mul_in_range by (cbn [exp]; rewrite Z.add_0_r; exact He).
  cbn [bind value exp]. rewrite Z.add_0_r, Sub_same_exp. f_equal. f_equal.
  pose proof (Z.quot_rem' A U). lia.
Qed.

(** X16. For a divisor that is not zero, of coefficient below [10 ^ 16] in
    magnitude and at the exponent of the dividend, [Mod] is the remainder
    of the truncated division of the coefficients: it has the sign of the
    dividend (or is zero), is smaller in magnitude than the divisor, and
    the dividend is the divisor times an integer plus the remainder. *)
Theorem Mod_truncated_remainder (A U e : Z) :
  U <> 0 -> Z.abs U < 10 ^ 16 ->
  in_int32 (e - 16) -> in_int32 e ->
  exists r,
    Mod (mkDecimal A e) (mkDecimal U e) = Ok (mkDecimal r e)
    /\ Z.abs r < Z.abs U
    /\ 0 <= r * A
    /\ exists q, A = U * q + r.
Proof.
  intros Hnz HU He16 He. exists (Z.rem A U).
  split; [apply Mod_same_exp_signed; assumption|].
  split; [apply Z.rem_bound_abs; exact Hnz|].
  split; [apply Z.rem_sign_mul; exact Hnz|].
  exists (Z.quot A U). apply Z.quot_rem'.
Qed.

Lemma Mod_truncated_remainder_witness :
  exists r,
    Mod (mkDecimal (-100) (-1)) (mkDecimal 30 (-1)) = Ok (mkDecimal r (-1))
    /\ Z.abs r < Z.abs 30
    /\ 0 <= r * -100
    /\ exists q, -100 = 30 * q + r.
Proof.
  apply (Mod_truncated_remainder (-100) 30 (-1)).
  - discriminate.
  - reflexivity.
  - unfold in_int32, MinInt32, MaxInt32. lia.
  - unfold in_int32, MinInt32, MaxInt32. lia.
Defined.

Example Mod_examples :
  Mod (mkDecimal 100 (-1)) (mkDecimal 30 (-1)) = Ok (mkDecimal 10 (-1))
  /\ Mod (mkDecimal (-100) (-1)) (mkDecimal 30 (-1)) = Ok (mkDecimal (-10) (-1))
  /\ Mod (mkDecimal 100 (-1)) (mkDecimal (-30) (-1)) = Ok (mkDecimal 10 (-1))
  /\ Mod (mkDecimal (-100) (-1)) (mkDecimal (-30) (-1))
     = Ok (mkDecimal (-10) (-1)).
Proof. repeat split; vm_compute; reflexivity. Qed.



Lemma Div_half_away_when_not_negative_witness :
  Div (mkDecimal 1000 (-1)) (mkDecimal 108 (-2))
  = Ok (mkDecimal (half_away_quot (1000 * 10 ^ (-1 - -2 + 16)) 108) (-16)).
Proof.
  apply (Div_half_away_when_not_negative (mkDecimal 1000 (-1)) (mkDecimal 108 (-2))).
  - cbn [value]. discriminate.
  - cbn [exp]. unfold MaxInt32. lia.
  - cbn [exp]. unfold in_int32, MinInt32, MaxInt32. lia.
  - cbn [exp]. unfold in_int32, MinInt32, MaxInt32. lia.
  - cbn [exp]. unfold in_int32, MinInt32, MaxInt32. lia.
  - cbn [value]. lia.
Defined.

(** ** Parsing what was printed *)

Lemma digitChar_value (x : Z) :
  0 <= x < 10 -> isDigit (digitChar x) = true /\ digitValue (digitChar x) = x.
Proof.
  intros Hx.
  assert (H : x = 0 \/ x = 1 \/ x = 2 \/ x = 3 \/ x = 4 \/ x = 5 \/ x = 6
              \/ x = 7 \/ x = 8 \/ x = 9) by lia.
  repeat (destruct H as [-> | H]; [split; reflexivity|]).
  subst x. split; reflexivity.
Qed.

Lemma toDigits_range (base : Z) (f : nat) :
  0 < base ->
  forall n acc,
    Forall (fun x => 0 <= x < base) acc ->
    Forall (fun x => 0 <= x < base) (toDigits base f n acc).
Proof.
  intros Hb. induction f as [|f IH]; intros n acc Hacc; simpl; [exact Hacc|].
  destruct (n =? 0); [exact Hacc|].
  apply IH. constructor; [apply Z.mod_pos_bound; exact Hb|exact Hacc].
Qed.

Lemma digitsOf_range (base n : Z) :
  0 < base -> Forall (fun x => 0 <= x < base) (digitsOf base n).
Proof. intros Hb. apply toDigits_range; [exact Hb|constructor]. Qed.

Lemma map_digitChar_digits (l : list Z) :
  Forall (fun x => 0 <= x < 10) l ->
  allDigits (map digitChar l) /\ map digitValue (map digitChar l) = l.
Proof.
  unfold allDigits.
  induction 1 as [|x l Hx _ [IH1 IH2]]; [split; reflexivity|].
  destruct (digitChar_value x Hx) as [H1 H2]. simpl.
  rewrite H1, H2, IH1, IH2. split; reflexivity.
Qed.

Lemma utoa_digits (n : Z) :
  0 <= n -> allDigits (big.utoa n) /\ digitsValue (big.utoa n) = n.
Proof.
  intros Hn. unfold big.utoa, digitsValue.
  destruct (Z.eqb_spec n 0) as [->|Hnz]; [split; reflexivity|].
  destruct (map_digitChar_digits (digitsOf 10 n)) as [H1 H2];
    [apply digitsOf_range; lia|].
  split; [exact H1|]. rewrite H2. apply ofDigits_digitsOf; lia.
Qed.

Lemma allDigits_repeat_zero (k : nat) : allDigits (repeat "0"%char k).
Proof. unfold allDigits. induction k; simpl; [reflexivity|exact IHk]. Qed.

Lemma digitsValue_leading_zeros (k : nat) (s : gostring) :
  digitsValue (repeat "0"%char k ++ s) = digitsValue s.
Proof. induction k as [|k IH]; [reflexivity|exact IH]. Qed.

Lemma digitsValue_snoc_zero (s : gostring) :
  digitsValue (s ++ ["0"%char]) = 10 * digitsValue s.
Proof.
  unfold digitsValue. rewrite map_app, ofDigits_app.
  change (map digitValue ["0"%char]) with [0]. rewrite ofDigits_cons.
  change (ofDigits 10 (10 * ofDigits 10 0 (map digitValue s) + 0) [])
    with (10 * ofDigits 10 0 (map digitValue s) + 0).
  apply Z.add_0_r.
Qed.

Lemma big_String_signText (x : Z) :
  big.String x = signText (x <? 0) ++ big.utoa (Z.abs x).
Proof.
  unfold big.String, signText.
  destruct (Z.ltb_spec x 0); simpl.
  - rewrite Z.abs_neq by lia. reflexivity.
  - rewrite Z.abs_eq by lia. reflexivity.
Qed.

Lemma optSign_signText (neg : bool) : optSign (signText neg) neg.
Proof. destruct neg; constructor. Qed.

Lemma signed_abs (x : Z) : signed (x <? 0) (Z.abs x) = x.
Proof. unfold signed. destruct (Z.ltb_spec x 0); lia. Qed.

(** The text that [String] makes of a decimal with a negative exponent. *)
Lemma String_fraction_form (d : Decimal) :
  exp d < 0 ->
  exists ip fp,
    String d = signText (value d <? 0) ++ ip ++ "."%char :: fp
    /\ allDigits ip /\ allDigits fp /\ ip <> []
    /\ Z.of_nat (List.length fp) = - exp d
    /\ digitsValue (ip ++ fp) = Z.abs (value d).
Proof.
  intros He. unfold String.
  destruct (Z.geb_spec (exp d) 0); [lia|].
  rewrite big_String_nonneg by lia.
  destruct (utoa_digits (Z.abs (value d)) ltac:(lia)) as [Hd Hv].
  set (s := big.utoa (Z.abs (value d))) in *.
  assert (Hsign : (big.Sign (value d) =? SignNegative) = (value d <? 0)).
  { unfold big.Sign, SignNegative. destruct (value d); reflexivity. }
  rewrite Hsign.
  assert (Hfinish : forall ip fp,
             fp <> [] ->
             (if value d <? 0
              then "-"%char :: (if (0 <? List.length fp)%nat
                                then ip ++ decSeparator ++ fp else ip)
              else (if (0 <? List.length fp)%nat
                    then ip ++ decSeparator ++ fp else ip))
             = signText (value d <? 0) ++ ip ++ "."%char :: fp).
  { intros ip fp Hne. destruct fp as [|c fp]; [contradiction|].
    change (0 <? List.length (c :: fp))%nat with true. cbv iota.
    unfold signText. destruct (value d <? 0); reflexivity. }
  destruct (Z.gtb_spec (Z.of_nat (List.length s)) (- exp d)) as [Hlong|Hshort].
  - set (n := Z.to_nat (Z.of_nat (List.length s) + exp d)).
    assert (Hlen : List.length (skipn n s) = Z.to_nat (- exp d))
      by (rewrite length_skipn; unfold n; lia).
    exists (firstn n s), (skipn n s).
    assert (Hfp : skipn n s <> [])
      by (intros E; rewrite E in Hlen; simpl in Hlen; lia).
    pose proof Hd as Hd'. rewrite <- (firstn_skipn n s) in Hd'.
    apply allDigits_app in Hd' as [Hd1 Hd2].
    split; [apply Hfinish; exact Hfp|].
    split; [exact Hd1|]. split; [exact Hd2|]. split.
    + intros E. apply (f_equal (@List.length ascii)) in E.
      rewrite length_firstn in E. simpl in E. unfold n in E. lia.
    + split; [lia|]. rewrite firstn_skipn. exact Hv.
  - exists (str "0"), (Repeat "0"%char (- exp d - Z.of_nat (List.length s)) ++ s).
    unfold Repeat.
    set (k := Z.to_nat (- exp d - Z.of_nat (List.length s))).
    assert (Hfp : repeat "0"%char k ++ s <> []).
    { intros E. apply (f_equal (@List.length ascii)) in E.
      rewrite length_app, repeat_length in E. simpl in E. unfold k in E. lia. }
    split; [apply Hfinish; exact Hfp|].
    split; [reflexivity|]. split.
    + apply allDigits_app. split; [apply allDigits_repeat_zero|exact Hd].
    + split; [discriminate|]. split.
      * rewrite length_app, repeat_length. unfold k. lia.
      * change (str "0" ++ repeat "0"%char k ++ s)
          with (repeat "0"%char (S k) ++ s).
        rewrite digitsValue_leading_zeros. exact Hv.
Qed.

Lemma ParseDecimal_String_fraction (d : Decimal) :
  MinInt32 <= exp d < 0 -> ParseDecimal (String d) = (d, None).
Proof.
  intros He.
  destruct (String_fraction_form d ltac:(lia))
    as (ip & fp & -> & Hi & Hf & Hne & Hlen & Hv).
  apply ParseDecimal_decimalText.
  replace d with (mkDecimal (signed (value d <? 0) (digitsValue (ip ++ fp)))
                            (- Z.of_nat (List.length fp))) at 2
    by (rewrite Hv, signed_abs, Hlen, Z.opp_involutive; destruct d; reflexivity).
  apply text_fraction; try assumption.
  - apply optSign_signText.
  - destruct ip; [contradiction|discriminate].
  - unfold MinInt32 in He. lia.
Qed.

Lemma ParseDecimal_String_integer (d : Decimal) :
  0 <= exp d ->
  ParseDecimal (String d) = (mkDecimal (value d * 10 ^ (exp d + 1)) (-1), None).
Proof.
  intros He. unfold String.
  destruct (Z.geb_spec (exp d) 0); [|lia].
  unfold roundPrec. destruct (Z.ltb_spec (exp d) 0); [lia|].
  change (0 >? 0) with false. cbv iota.
  rewrite rescale_finer by lia. cbn [value].
  rewrite Z.sub_0_r. set (x := value d * 10 ^ exp d).
  rewrite big_String_signText. change decSeparator with ["."%char].
  change (Repeat "0"%char 1) with ["0"%char].
  destruct (utoa_digits (Z.abs x) ltac:(lia)) as [Hd Hv].
  rewrite <- app_assoc. simpl (["."%char] ++ _).
  apply ParseDecimal_decimalText.
  replace (mkDecimal (value d * 10 ^ (exp d + 1)) (-1))
    with (mkDecimal (signed (x <? 0) (digitsValue (big.utoa (Z.abs x) ++ ["0"%char])))
                    (- Z.of_nat (List.length ["0"%char]))).
  - apply text_fraction.
    + apply optSign_signText.
    + exact Hd.
    + reflexivity.
    + destruct (big.utoa (Z.abs x)); discriminate.
    + simpl. lia.
  - rewrite digitsValue_snoc_zero, Hv. f_equal.
    rewrite pow10_succ by lia. unfold signed, x.
    destruct (Z.ltb_spec (value d * 10 ^ exp d) 0); lia.
Qed.

(** X19. What [String] prints is always accepted by [ParseDecimal], and
    the decimal parsed is [Equal] to the one printed.  With a negative
    exponent it is the very same decimal, coefficient and exponent; with
    an exponent that is not negative the text is an integer followed by
    [.0], and the decimal parsed has exponent [-1]. *)
Theorem String_ParseDecimal_round_trip (d : Decimal) :
  wf d ->
  (exp d < 0 -> ParseDecimal (String d) = (d, None))
  /\ (0 <= exp d ->
      ParseDecimal (String d)
      = (mkDecimal (value d * 10 ^ (exp d + 1)) (-1), None))
  /\ exists d', ParseDecimal (String d) = (d', None) /\ Equal d' d = true.
Proof.
  intros Hwf. unfold wf, in_int32 in Hwf.
  split; [intros He; apply ParseDecimal_String_fraction; lia|].
  split; [apply ParseDecimal_String_integer|].
  destruct (Z.lt_ge_cases (exp d) 0) as [He|He].
  - exists d. split; [apply ParseDecimal_String_fraction; lia|].
    apply (Equal_scaled d d (- exp d)); lia.
  - eexists. split; [apply ParseDecimal_String_integer; exact He|].
    apply (Equal_scaled _ _ 1); cbn [exp]; try lia.
    unfold scaled. cbn [value exp]. simpl (10 ^ (-1 + 1)). ring.
Qed.

Lemma String_ParseDecimal_round_trip_witness :
  ParseDecimal (String (mkDecimal (-5) (-3))) = (mkDecimal (-5) (-3), None).
Proof.
  apply (String_ParseDecimal_round_trip (mkDecimal (-5) (-3))).
  - unfold wf, in_int32, MinInt32, MaxInt32. simpl. lia.
  - simpl. lia.
Defined.

Example String_examples :
  String (mkDecimal (-5) (-3)) = str "-0.005"
  /\ String (mkDecimal 55 1) = str "550.0"
  /\ String zeroValue = str "0.0"
  /\ String (mkDecimal 0 (-2)) = str "0.00".
Proof. repeat split; reflexivity. Qed.

(** ** JSON, text and binary forms *)

Lemma String_parses (d : Decimal) :
  wf d ->
  exists d',
    ParseDecimal (String d) = (d', None) /\ Equal d' d = true
    /\ (exp d < 0 -> d' = d).
Proof.
  intros Hwf. pose proof Hwf as Hwf'. unfold wf, in_int32 in Hwf'.
  destruct (Z.lt_ge_cases (exp d) 0) as [He|He].
  - exists d. split; [apply ParseDecimal_String_fraction; lia|].
    split; [apply (Equal_scaled d d (- exp d)); lia|reflexivity].
  - eexists. split; [apply ParseDecimal_String_integer; exact He|].
    split; [|lia].
    apply (Equal_scaled _ _ 1); cbn [exp]; try lia.
    unfold scaled. cbn [value exp]. simpl (10 ^ (-1 + 1)). ring.
Qed.

Lemma UnmarshalJSON_quoted (d0 : Decimal) (s : gostring) :
  s <> [] ->
  UnmarshalJSON d0 ([quote] ++ s ++ [quote])
  = match ParseDecimal s with
    | (_, Some err) => (d0, Some (ErrParsing s err))
    | (decimal, None) => (decimal, None)
    end.
Proof.
  intros Hne. unfold UnmarshalJSON.
  assert (Hlen : List.length ([quote] ++ s ++ [quote]) = S (S (List.length s)))
    by (simpl; rewrite length_app; simpl; lia).
  rewrite Hlen.
  assert (H2 : (2 <? S (S (List.length s)))%nat = true)
    by (destruct s; [contradiction|reflexivity]).
  rewrite H2.
  change (nth 0 ([quote] ++ s ++ [quote]) Ascii.zero) with quote.
  replace (nth (S (S (List.length s)) - 1) ([quote] ++ s ++ [quote]) Ascii.zero)
    with quote.
  - rewrite Ascii.eqb_refl. cbn [andb].
    change (skipn 1 ([quote] ++ s ++ [quote])) with (s ++ [quote]).
    replace (S (S (List.length s)) - 2)%nat with (List.length s) by lia.
    rewrite firstn_length_app. reflexivity.
  - replace (S (S (List.length s)) - 1)%nat with (S (List.length s)) by lia.
    change (nth (S (List.length s)) ([quote] ++ s ++ [quote]) Ascii.zero)
      with (nth (List.length s) (s ++ [quote]) Ascii.zero).
    symmetry. apply nth_middle.
Qed.

Lemma String_nonempty (d : Decimal) : wf d -> String d <> [].
Proof.
  intros Hwf E. destruct (String_parses d Hwf) as (d' & Hp & _).
  rewrite E in Hp. discriminate.
Qed.

(** X20. A decimal marshalled to JSON and unmarshalled, into any receiver,
    gives a decimal [Equal] to it and no error; with a negative exponent
    it is the same decimal, trailing zeros included. *)
Theorem UnmarshalJSON_MarshalJSON (d0 d : Decimal) :
  wf d ->
  exists d',
    UnmarshalJSON d0 (fst (MarshalJSON d)) = (d', None)
    /\ Equal d' d = true
    /\ (exp d < 0 -> d' = d).
Proof.
  intros Hwf. destruct (String_parses d Hwf) as (d' & Hp & HE & Hsame).
  exists d'. split; [|split; assumption].
  unfold MarshalJSON. cbn [fst].
  rewrite UnmarshalJSON_quoted by (apply String_nonempty; exact Hwf).
  rewrite Hp. reflexivity.
Qed.

Lemma UnmarshalJSON_MarshalJSON_witness :
  exists d',
    UnmarshalJSON zeroValue (fst (MarshalJSON (mkDecimal 12000 (-2))))
    = (d', None)
    /\ Equal d' (mkDecimal 12000 (-2)) = true
    /\ (-2 < 0 -> d' = mkDecimal 12000 (-2)).
Proof.
  apply (UnmarshalJSON_MarshalJSON zeroValue (mkDecimal 12000 (-2))).
  unfold wf, in_int32, MinInt32, MaxInt32. simpl. lia.
Defined.

(** Data that is not a quoted text, such as a bare JSON number, is accepted
    without error and without effect; a quoted text that does not parse is
    an error and leaves the receiver as it was. *)
Example UnmarshalJSON_edge_cases :
  UnmarshalJSON (mkDecimal 7 0) (str "1.5") = (mkDecimal 7 0, None)
  /\ UnmarshalJSON (mkDecimal 7 0) [quote; quote] = (mkDecimal 7 0, None)
  /\ UnmarshalJSON (mkDecimal 7 0) ([quote] ++ str "1,5" ++ [quote])
     = (mkDecimal 7 0, Some (ErrParsing (str "1,5") ErrInvalidDecimal)).
Proof. repeat split; reflexivity. Qed.

(** X21. A decimal marshalled to text and unmarshalled gives a decimal
    [Equal] to it, the same one when the exponent is negative.  When the
    text does not parse, [UnmarshalText] reports the error and the receiver
    is left holding the placeholder zero of exponent 1, not its former
    value. *)
Theorem UnmarshalText_MarshalText (d : Decimal) :
  wf d ->
  (exists d',
     UnmarshalText (fst (MarshalText d)) = (d', None)
     /\ Equal d' d = true
     /\ (exp d < 0 -> d' = d))
  /\ (forall t d' e,
        UnmarshalText t = (d', Some e) ->
        d' = zero /\ e = ErrDecoding t ErrInvalidDecimal).
Proof.
  intros Hwf. split.
  - destruct (String_parses d Hwf) as (d' & Hp & HE & Hsame).
    exists d'. split; [|split; assumption].
    unfold MarshalText, UnmarshalText. cbn [fst]. rewrite Hp. reflexivity.
  - intros t d' e H. unfold UnmarshalText in H.
    destruct (ParseDecimal_total t) as [Ht|[d'' Ht]]; rewrite Ht in H.
    + injection H as <- <-. split; reflexivity.
    + discriminate.
Qed.

Lemma UnmarshalText_MarshalText_witness :
  exists d',
    UnmarshalText (fst (MarshalText (mkDecimal (-5) (-3)))) = (d', None)
    /\ Equal d' (mkDecimal (-5) (-3)) = true
    /\ (-3 < 0 -> d' = mkDecimal (-5) (-3)).
Proof.
  apply (proj1 (UnmarshalText_MarshalText (mkDecimal (-5) (-3))
                  ltac:(unfold wf, in_int32, MinInt32, MaxInt32; simpl; lia))).
Defined.

(** X22. The binary form is injective: two decimals with the same bytes
    have the same coefficient and the same exponent, so decimals that
    differ only in trailing zeros have different bytes. *)
Theorem MarshalBinary_injective (d d' : Decimal) :
  wf d -> wf d' ->
  MarshalBinary big.GobEncode d = MarshalBinary big.GobEncode d' ->
  d = d'.
Proof.
  intros Hd Hd' E.
  destruct (UnmarshalBinary_MarshalBinary_generic
              big.GobEncode big.GobDecode d GobDecode_GobEncode Hd)
    as (data & Hm & _ & Hu).
  destruct (UnmarshalBinary_MarshalBinary_generic
              big.GobEncode big.GobDecode d' GobDecode_GobEncode Hd')
    as (data' & Hm' & _ & Hu').
  rewrite E, Hm' in Hm. injection Hm as <-.
  rewrite Hu' in Hu. injection Hu as ->. reflexivity.
Qed.

Lemma MarshalBinary_injective_witness :
  mkDecimal 12000 (-2) = mkDecimal 12000 (-2).
Proof.
  apply (MarshalBinary_injective (mkDecimal 12000 (-2)) (mkDecimal 12000 (-2)));
    [unfold wf, in_int32, MinInt32, MaxInt32; simpl; lia ..|reflexivity].
Defined.

Example MarshalBinary_sees_trailing_zeros :
  MarshalBinary big.GobEncode (mkDecimal 12000 (-2))
  <> MarshalBinary big.GobEncode (mkDecimal 1200 (-1)).
Proof. discriminate. Qed.

(** ** Power *)

Lemma bigInt64_small (m : Z) :
  0 <= m < 9223372036854775808 -> bigInt64 m = m.
Proof.
  intros Hm. unfold bigInt64, int64.
  rewrite Z.abs_eq by lia.
  rewrite (Z.mod_small m) by lia.
  destruct (Z.ltb_spec m 0); [lia|].
  rewrite Z.mod_small by lia. lia.
Qed.

Lemma IntPart_integer (n : Z) :
  0 <= n < 9223372036854775808 -> IntPart (mkDecimal n 0) = n.
Proof.
  intros Hn. unfold IntPart. rewrite rescale_same_exp by reflexivity.
  apply bigInt64_small. exact Hn.
Qed.

Lemma IntPart_sixteen_digits (x m : Z) :
  0 <= m < 9223372036854775808 ->
  m * 10 ^ 16 <= x < (m + 1) * 10 ^ 16 ->
  IntPart (mkDecimal x (-16)) = m.
Proof.
  intros Hm Hx. unfold IntPart.
  rewrite rescale_coarser by (cbn [exp]; lia). cbn [value exp].
  change (0 - -16) with 16.
  rewrite Z.quot_div_nonneg by lia.
  replace (x / 10 ^ 16) with m
    by (apply (Z.div_unique x (10 ^ 16) m (x - m * 10 ^ 16)); lia).
  apply bigInt64_small. exact Hm.
Qed.

Lemma Div_halves_sixteen_digits (x : Z) :
  0 <= x ->
  Div (mkDecimal x (-16)) (buildDecimal 2 0) = Ok (mkDecimal ((x + 1) / 2) (-16)).
Proof.
  intros Hx. unfold buildDecimal.
  rewrite Div_scaled_dividend; cbn [value exp];
    try (unfold in_int32, MinInt32, MaxInt32; lia).
  change (-16 - 0 + 16) with 0. change (10 ^ 0) with 1. rewrite Z.mul_1_r.
  cbv zeta. rewrite Z.quot_div_nonneg, Z.rem_mod_nonneg by lia.
  pose proof (Z.div_mod x 2 ltac:(lia)) as E.
  pose proof (Z.mod_pos_bound x 2 ltac:(lia)) as B.
  f_equal. f_equal.
  change (Z.abs 2) with 2.
  destruct (Z.ltb_spec (2 * Z.abs (x mod 2)) 2).
  - apply (Z.div_unique (x + 1) 2 (x / 2) 1); lia.
  - apply (Z.div_unique (x + 1) 2 (x / 2 + 1) 0); lia.
Qed.

Lemma in_int32_of_abs (z : Z) : Z.abs z <= MaxInt32 -> in_int32 z.
Proof. unfold in_int32, MinInt32, MaxInt32. lia. Qed.

(** One level of the recursion: from the power for half the exponent to
    the power for the exponent. *)
Lemma Pow_combine (fuel : nat) (d d2 half : Decimal) (m : Z) :
  0 < m -> IntPart d2 = m ->
  Div d2 (buildDecimal 2 0) = Ok half ->
  Z.abs (m * exp d) <= MaxInt32 ->
  Pow fuel d half = Some (Ok (mkDecimal (value d ^ (m / 2)) (m / 2 * exp d))) ->
  Pow (S fuel) d d2 = Some (Ok (mkDecimal (value d ^ m) (m * exp d))).
Proof.
  intros Hm HI HD Hrange HP. cbn [Pow]. rewrite HI.
  destruct (Z.eqb_spec m 0); [lia|].
  unfold NewDecimalOfInteger. rewrite HD, HP.
  rewrite Z.rem_mod_nonneg by lia.
  pose proof (Z.div_mod m 2 ltac:(lia)) as E.
  pose proof (Z.mod_pos_bound m 2 ltac:(lia)) as B.
  assert (Hh : 0 <= m / 2) by (apply Z.div_pos; lia).
  assert (Hr2 : Z.abs (m / 2 * exp d + m / 2 * exp d) <= MaxInt32).
  { replace (m / 2 * exp d + m / 2 * exp d) with (2 * (m / 2) * exp d) by ring.
    rewrite Z.abs_mul in *. rewrite (Z.abs_eq m) in Hrange by lia.
    rewrite (Z.abs_eq (2 * (m / 2))) by lia.
    pose proof (Z.abs_nonneg (exp d)). nia. }
  set (h := m / 2) in *.
  destruct (Z.eqb_spec (m mod 2) 0) as [Hev|Hodd].
  - assert (Em : m = h + h) by lia.
    rewrite Mul_in_range by (cbn [exp]; apply in_int32_of_abs; exact Hr2).
    cbn [value exp]. rewrite Em, Z.pow_add_r by lia.
    f_equal. f_equal. f_equal. ring.
  - assert (Em : m = h + h + 1) by lia.
    destruct (Z.gtb_spec m 0); [|lia].
    rewrite Mul_in_range by (cbn [exp]; apply in_int32_of_abs; exact Hr2).
    cbn [bind value exp].
    rewrite Mul_in_range.
    + cbn [value exp]. rewrite Em, !Z.pow_add_r, Z.pow_1_r by lia.
      f_equal. f_equal. f_equal. ring.
    + cbn [exp]. apply in_int32_of_abs.
      replace (h * exp d + h * exp d + exp d) with (m * exp d);
        [exact Hrange|rewrite Em; ring].
Qed.

Lemma Pow_halving (j : nat) :
  forall (fuel : nat) (d : Decimal) (x m : Z),
    (j < fuel)%nat -> (j <= 60)%nat ->
    0 <= m < 2 ^ Z.of_nat j ->
    m * 10 ^ 16 <= x ->
    x + 2 ^ (Z.of_nat j + 1) <= (m + 1) * 10 ^ 16 ->
    Z.abs (m * exp d) <= MaxInt32 ->
    Pow fuel d (mkDecimal x (-16))
    = Some (Ok (mkDecimal (value d ^ m) (m * exp d))).
Proof.
  induction j as [|j IH]; intros fuel d x m Hfuel Hj Hm Hlo Hhi Hrange.
  - change (2 ^ Z.of_nat 0) with 1 in Hm.
    change (2 ^ (Z.of_nat 0 + 1)) with 2 in Hhi.
    assert (m = 0) by lia. subst m.
    destruct fuel as [|fuel]; [lia|]. cbn [Pow].
    rewrite (IntPart_sixteen_digits x 0) by lia.
    reflexivity.
  - assert (Hpow : 0 < 2 ^ Z.of_nat j) by (apply Z.pow_pos_nonneg; lia).
    assert (Hbig : 2 ^ Z.of_nat (S j) <= 2 ^ 61)
      by (apply Z.pow_le_mono_r; lia).
    change (2 ^ 61) with 2305843009213693952 in Hbig.
    rewrite Nat2Z.inj_succ in *.
    rewrite Z.pow_succ_r in Hm, Hbig by lia.
    replace (Z.succ (Z.of_nat j) + 1) with (Z.succ (Z.of_nat j + 1)) in Hhi
      by lia.
    rewrite Z.pow_succ_r in Hhi by lia.
    assert (Hp1 : 0 < 2 ^ (Z.of_nat j + 1)) by (apply Z.pow_pos_nonneg; lia).
    destruct fuel as [|fuel]; [lia|].
    destruct (Z.eq_dec m 0) as [->|Hnz].
    + cbn [Pow].
      rewrite (IntPart_sixteen_digits x 0) by lia.
      reflexivity.
    + pose proof (Z.div_mod m 2 ltac:(lia)) as E.
      pose proof (Z.mod_pos_bound m 2 ltac:(lia)) as B.
      pose proof (Z.div_mod (x + 1) 2 ltac:(lia)) as E'.
      pose proof (Z.mod_pos_bound (x + 1) 2 ltac:(lia)) as B'.
      assert (Hx : 0 <= x) by nia.
      apply (Pow_combine fuel d _ (mkDecimal ((x + 1) / 2) (-16)) m).
      * lia.
      * apply IntPart_sixteen_digits; lia.
      * apply Div_halves_sixteen_digits. exact Hx.
      * exact Hrange.
      * apply IH; try lia.
        rewrite Z.abs_mul in *. rewrite (Z.abs_eq m) in Hrange by lia.
        rewrite (Z.abs_eq (m / 2)) by (apply Z.div_pos; lia).
        pose proof (Z.abs_nonneg (exp d)).
        assert (m / 2 <= m) by lia. nia.
Qed.

(** X23. For a natural exponent [n] below [2 ^ 52], given as a decimal of
    exponent 0, and enough fuel, [Pow] returns the decimal whose
    coefficient is the [n]-th power of the coefficient and whose exponent
    is [n] times the exponent, provided that product fits in [int32]; no
    multiplication on the way panics.  An exponent whose integer part is
    zero, such as [0.5], gives 1. *)
Theorem Pow_natural_exponent (d : Decimal) (n : Z) (fuel : nat) :
  0 <= n < 2 ^ 52 ->
  Z.abs (n * exp d) <= MaxInt32 ->
  (53 <= fuel)%nat ->
  Pow fuel d (mkDecimal n 0)
  = Some (Ok (mkDecimal (value d ^ n) (n * exp d)))
  /\ (forall d2, IntPart d2 = 0 -> Pow fuel d d2 = Some (Ok (mkDecimal 1 0))).
Proof.
  intros Hn Hrange Hfuel.
  change (2 ^ 52) with 4503599627370496 in Hn.
  destruct fuel as [|fuel]; [lia|]. split.
  - destruct (Z.eq_dec n 0) as [->|Hnz].
    + cbn [Pow]. rewrite IntPart_integer by lia. reflexivity.
    + pose proof (Z.div_mod n 2 ltac:(lia)) as E.
      pose proof (Z.mod_pos_bound n 2 ltac:(lia)) as B.
      apply (Pow_combine fuel d _ (mkDecimal (n * 5 * 10 ^ 15) (-16)) n).
      * lia.
      * apply IntPart_integer. lia.
      * apply (Div_by_two_exact n 0). unfold MaxInt32. lia.
      * exact Hrange.
      * apply (Pow_halving 51); try lia.
        rewrite Z.abs_mul in *. rewrite (Z.abs_eq n) in Hrange by lia.
        rewrite (Z.abs_eq (n / 2)) by (apply Z.div_pos; lia).
        pose proof (Z.abs_nonneg (exp d)).
        assert (n / 2 <= n) by lia. nia.
  - intros d2 H0. cbn [Pow]. rewrite H0. reflexivity.
Qed.

Lemma Pow_natural_exponent_witness :
  Pow 53 (mkDecimal (-12) (-1)) (mkDecimal 5 0)
  = Some (Ok (mkDecimal ((-12) ^ 5) (5 * -1))).
Proof.
  apply (Pow_natural_exponent (mkDecimal (-12) (-1)) 5 53).
  - split; [lia|reflexivity].
  - cbn [exp]. unfold MaxInt32. lia.
  - lia.
Defined.

Example Pow_examples :
  Pow 60 (mkDecimal 12 (-1)) (mkDecimal 5 0)
  = Some (Ok (mkDecimal 248832 (-5)))
  /\ Pow 60 (mkDecimal 12 (-1)) (mkDecimal 5 (-1)) = Some (Ok (mkDecimal 1 0))
  /\ Pow 60 (mkDecimal 20 (-1)) (mkDecimal (-2) 0)
     = Some (Ok (mkDecimal 25000000000000000000000000000000 (-32))).
Proof. repeat split; vm_compute; reflexivity. Qed.

(** ** The registry of unofficial currencies *)

Lemma gostring_eqb_eq (a b : gostring) : gostring_eqb a b = true <-> a = b.
Proof.
  unfold gostring_eqb. destruct (list_eq_dec ascii_dec a b); split; intros;
    congruence.
Qed.

Lemma Load_Store (reg : registry) (s t : gostring) :
  Load (Store reg s) t = gostring_eqb t s || Load reg t.
Proof. reflexivity. Qed.

Lemma Load_Store_same (reg : registry) (s : gostring) :
  Load (Store reg s) s = true.
Proof.
  rewrite Load_Store. rewrite (proj2 (gostring_eqb_eq s s) eq_refl). reflexivity.
Qed.

Section CurrencyProperties.

Variable ToUpper : gostring -> gostring.
Variable TrimSpace : gostring -> gostring.
Variable ParseISO : gostring -> option gostring.

Let sanitise (s : gostring) : gostring := TrimSpace (ToUpper s).
Let parse := ParseCurrency ToUpper TrimSpace ParseISO.
Let register := RegisterUnoficialCurrency ToUpper TrimSpace ParseISO.

Lemma register_cases (reg : registry) (code : gostring) :
  sanitise (sanitise code) = sanitise code ->
  (register reg code = reg
   /\ (Load reg (sanitise code) = true \/ ParseISO (sanitise code) <> None))
  \/ (register reg code = Store reg (sanitise code)
      /\ Load reg (sanitise code) = false
      /\ ParseISO (sanitise code) = None).
Proof.
  intros Hidem. unfold register, RegisterUnoficialCurrency, ParseCurrency.
  fold (sanitise code). fold (sanitise (sanitise code)). rewrite Hidem.
  destruct (Load reg (sanitise code)) eqn:HL; [left; auto|].
  destruct (ParseISO (sanitise code)) eqn:HP.
  - left. split; [reflexivity|right; discriminate].
  - right. auto.
Qed.

(** X24. Once a code has been registered, it parses: [ParseCurrency]
    returns no error for it.  Registering does not disturb what parsed
    before, which still parses to the same currency, and registering the
    same code again changes nothing.  This holds for a code that
    upper-casing and trimming leave fixed once they have been applied. *)
Theorem RegisterUnoficialCurrency_then_ParseCurrency
        (reg : registry) (code : gostring) :
  sanitise (sanitise code) = sanitise code ->
  snd (parse (register reg code) code) = None
  /\ (forall s c, parse reg s = (c, None) ->
                  parse (register reg code) s = (c, None))
  /\ register (register reg code) code = register reg code.
Proof.
  intros Hidem.
  destruct (register_cases reg code Hidem)
    as [[Hreg Hok]|(Hreg & HL & HP)].
  - rewrite Hreg. split; [|split; [auto|exact Hreg]].
    unfold parse, ParseCurrency. fold (sanitise code).
    destruct Hok as [HL|HP]; [rewrite HL; reflexivity|].
    destruct (Load reg (sanitise code)); [reflexivity|].
    destruct (ParseISO (sanitise code)); [reflexivity|contradiction].
  - rewrite !Hreg. split; [|split].
    + unfold parse, ParseCurrency. fold (sanitise code).
      rewrite Load_Store_same. reflexivity.
    + intros s c. unfold parse, ParseCurrency. fold (sanitise s).
      rewrite Load_Store.
      destruct (Load reg (sanitise s)) eqn:HLs;
        [rewrite orb_true_r; auto|].
      rewrite orb_false_r.
      destruct (gostring_eqb (sanitise s) (sanitise code)) eqn:E; [|auto].
      apply gostring_eqb_eq in E. rewrite E, HP. discriminate.
    + destruct (register_cases (Store reg (sanitise code)) code Hidem)
        as [[Hreg' _]|(_ & HL' & _)]; [exact Hreg'|].
      rewrite Load_Store_same in HL'. discriminate.
Qed.

End CurrencyProperties.

Lemma RegisterUnoficialCurrency_then_ParseCurrency_witness :
  snd (ParseCurrency asciiToUpper asciiTrimSpace someISO
         (RegisterUnoficialCurrency asciiToUpper asciiTrimSpace someISO
            [] (str " eth "))
         (str " eth "))
  = None.
Proof.
  apply (RegisterUnoficialCurrency_then_ParseCurrency
           asciiToUpper asciiTrimSpace someISO [] (str " eth ")).
  reflexivity.
Defined.

Example ParseCurrency_examples :
  ParseCurrency asciiToUpper asciiTrimSpace someISO [] (str " chf")
  = (str "CHF", None)
  /\ ParseCurrency asciiToUpper asciiTrimSpace someISO [] (str "eth")
     = (nullCurrency, Some ErrInvalidCurrency)
  /\ ParseCurrency asciiToUpper asciiTrimSpace someISO
       (RegisterUnoficialCurrency asciiToUpper asciiTrimSpace someISO
          [] (str "eth"))
       (str "Eth ")
     = (str "ETH", None)
  /\ RegisterUnoficialCurrency asciiToUpper asciiTrimSpace someISO
       [] (str "chf")
     = [].
Proof. repeat split; reflexivity. Qed.

(** ** Parsing money *)

(** X25. A money value whose currency parses to itself is read back by
    [Parse] from the text of its amount and its currency: parsing
    succeeds, and the money obtained is [Equal] to the original. *)
Theorem MoneyParse_String_round_trip
        (ToUpper TrimSpace : gostring -> gostring)
        (ParseISO : gostring -> option gostring)
        (reg : registry) (m : Money) :
  wf (Amount m) ->
  ParseCurrency ToUpper TrimSpace ParseISO reg (CurrencyOf m)
  = (CurrencyOf m, None) ->
  exists m',
    MoneyParse ToUpper TrimSpace ParseISO reg
      (String (Amount m)) (CurrencyOf m)
    = (Some m', None)
    /\ MoneyEqual m' m = true
    /\ MoneyEqual m m' = true.
Proof.
  intros Hwf Hc.
  destruct (String_parses (Amount m) Hwf) as (a & Hp & He & _).
  exists (mkMoney a (CurrencyOf m)). unfold MoneyParse. rewrite Hp, Hc.
  split; [reflexivity|].
  assert (Hs : gostring_eqb (CurrencyOf m) (CurrencyOf m) = true)
    by (apply gostring_eqb_eq; reflexivity).
  unfold MoneyEqual. cbn [CurrencyOf Amount]. rewrite Hs. cbn [negb].
  split; [exact He|].
  unfold Equal in *. rewrite Cmp_swap.
  destruct (Cmp a (Amount m)); try discriminate. reflexivity.
Qed.

Lemma MoneyParse_String_round_trip_witness :
  exists m',
    MoneyParse asciiToUpper asciiTrimSpace someISO []
      (String (mkDecimal 12050 (-2))) (str "CHF")
    = (Some m', None)
    /\ MoneyEqual m' (mkMoney (mkDecimal 12050 (-2)) (str "CHF")) = true
    /\ MoneyEqual (mkMoney (mkDecimal 12050 (-2)) (str "CHF")) m' = true.
Proof.
  apply (MoneyParse_String_round_trip asciiToUpper asciiTrimSpace someISO
           [] (mkMoney (mkDecimal 12050 (-2)) (str "CHF"))).
  - unfold wf, in_int32, MinInt32, MaxInt32. cbn [Amount exp]. lia.
  - reflexivity.
Defined.

(** ** Directional rounding of the money layer *)

Lemma Truncate_same_exp (d : Decimal) :
  in_int32 (exp d) -> Truncate d (int32 (exp d * -1)) = d.
Proof.
  intros He. unfold Truncate.
  destruct (Z.eq_dec (exp d) MinInt32) as [Hm|Hm].
  - rewrite Hm. vm_compute. reflexivity.
  - unfold in_int32, MinInt32, MaxInt32 in *.
    rewrite (int32_id (exp d * -1)) by (unfold in_int32, MinInt32, MaxInt32; lia).
    replace (- (exp d * -1)) with (exp d) by lia.
    rewrite int32_id by (unfold in_int32, MinInt32, MaxInt32; lia).
    rewrite Z.gtb_ltb, Z.ltb_irrefl, andb_false_r. reflexivity.
Qed.

(** X26. For an amount held at the exponent of the unit, [Round] in mode
    [RoundDown] returns the multiple of the unit that lies towards zero,
    for negative amounts too, and in mode [RoundUp] it returns the amount
    plus its remainder by the unit; the latter is a multiple of the unit
    only when twice the remainder is one. *)
Theorem MoneyRound_directional_at_unit_exponent (A U e : Z) :
  U <> 0 -> Z.abs U < 10 ^ 16 ->
  in_int32 (e - 16) -> - MaxInt32 <= e <= MaxInt32 ->
  MoneyRound (mkDecimal A e) (mkDecimal U e) RoundDownMode
  = Ok (mkDecimal (U * Z.quot A U) e)
  /\ MoneyRound (mkDecimal A e) (mkDecimal U e) RoundUpMode
     = Ok (mkDecimal (A + Z.rem A U) e)
  /\ (Z.divide U (A + Z.rem A U) <-> Z.divide U (2 * Z.rem A U)).
Proof.
  intros HU Hb He16 He.
  assert (Hi : in_int32 e) by (unfold in_int32, MinInt32, MaxInt32 in *; lia).
  assert (Hp : int32 (e * -1) = - e)
    by (rewrite int32_id;
        [lia|unfold in_int32, MinInt32, MaxInt32 in *; lia]).
  assert (HE : Equal (Round (mkDecimal A e) (- e)) (mkDecimal A e) = true).
  { apply Equal_Round_coarse; cbn [exp]; unfold MinInt32, MaxInt32 in *; lia. }
  pose proof (Z.quot_rem' A U) as Hqr.
  split; [|split].
  - unfold MoneyRound, Exponent. cbn [exp]. rewrite Hp.
    unfold RoundDown. rewrite HE.
    rewrite Mod_same_exp_signed by assumption. cbn [bind].
    rewrite Sub_same_exp. rewrite <- Hp.
    pose proof (Truncate_same_exp (mkDecimal (A - Z.rem A U) e) Hi) as HT.
    cbn [exp] in HT. rewrite HT.
    f_equal. f_equal. lia.
  - unfold MoneyRound, Exponent. cbn [exp]. rewrite Hp.
    unfold RoundUp. rewrite HE.
    rewrite Mod_same_exp_signed by assumption. cbn [bind].
    rewrite Add_same_exp. rewrite <- Hp.
    pose proof (Truncate_same_exp (mkDecimal (A + Z.rem A U) e) Hi) as HT.
    cbn [exp] in HT. rewrite HT.
    reflexivity.
  - split; intros [k Hk].
    + exists (k - Z.quot A U). lia.
    + exists (k + Z.quot A U). lia.
Qed.

Lemma MoneyRound_directional_at_unit_exponent_witness :
  MoneyRound (mkDecimal (-144) (-2)) (mkDecimal 5 (-2)) RoundDownMode
  = Ok (mkDecimal (5 * Z.quot (-144) 5) (-2))
  /\ MoneyRound (mkDecimal (-144) (-2)) (mkDecimal 5 (-2)) RoundUpMode
     = Ok (mkDecimal (-144 + Z.rem (-144) 5) (-2))
  /\ (Z.divide 5 (-144 + Z.rem (-144) 5) <-> Z.divide 5 (2 * Z.rem (-144) 5)).
Proof.
  apply (MoneyRound_directional_at_unit_exponent (-144) 5 (-2)).
  - discriminate.
  - vm_compute. reflexivity.
  - unfold in_int32, MinInt32, MaxInt32. lia.
  - unfold MaxInt32. lia.
Defined.

Example MoneyRound_directional_examples :
  MoneyRound (mkDecimal 144 (-2)) (mkDecimal 5 (-2)) RoundDownMode
  = Ok (mkDecimal 140 (-2))
  /\ MoneyRound (mkDecimal (-144) (-2)) (mkDecimal 5 (-2)) RoundDownMode
     = Ok (mkDecimal (-140) (-2))
  /\ MoneyRound (mkDecimal 141 (-2)) (mkDecimal 5 (-2)) RoundUpMode
     = Ok (mkDecimal 142 (-2))
  /\ MoneyRound (mkDecimal 149 (-2)) (mkDecimal 10 (-2)) RoundDownMode
     = Ok (mkDecimal 140 (-2))
  /\ MoneyRound (mkDecimal 141 (-2)) (mkDecimal 10 (-2)) RoundUpMode
     = Ok (mkDecimal 142 (-2)).
Proof. repeat split; vm_compute; reflexivity. Qed.

(** ** Serialisation of currencies *)

Lemma CurrencyUnmarshalJSON_quoted
      (ToUpper TrimSpace : gostring -> gostring)
      (ParseISO : gostring -> option gostring)
      (reg : registry) (c0 : Currency) (s : gostring) :
  s <> [] ->
  CurrencyUnmarshalJSON ToUpper TrimSpace ParseISO reg c0
    ([quote] ++ s ++ [quote])
  = match ParseCurrency ToUpper TrimSpace ParseISO reg s with
    | (_, Some err) => (c0, Some (ErrParsingCurrency s err))
    | (currency, None) => (currency, None)
    end.
Proof.
  intros Hne. unfold CurrencyUnmarshalJSON.
  assert (Hlen : List.length ([quote] ++ s ++ [quote]) = S (S (List.length s)))
    by (simpl; rewrite length_app; simpl; lia).
  rewrite Hlen.
  assert (H2 : (2 <? S (S (List.length s)))%nat = true)
    by (destruct s; [contradiction|reflexivity]).
  rewrite H2.
  change (nth 0 ([quote] ++ s ++ [quote]) Ascii.zero) with quote.
  replace (nth (S (S (List.length s)) - 1) ([quote] ++ s ++ [quote]) Ascii.zero)
    with quote.
  - rewrite Ascii.eqb_refl. cbn [andb].
    change (skipn 1 ([quote] ++ s ++ [quote])) with (s ++ [quote]).
    replace (S (S (List.length s)) - 2)%nat with (List.length s) by lia.
    rewrite firstn_length_app. reflexivity.
  - replace (S (S (List.length s)) - 1)%nat with (S (List.length s)) by lia.
    change (nth (S (List.length s)) ([quote] ++ s ++ [quote]) Ascii.zero)
      with (nth (List.length s) (s ++ [quote]) Ascii.zero).
    symmetry. apply nth_middle.
Qed.

(** X27. A currency that is not empty and that [ParseCurrency] maps to
    itself comes back from its JSON form and from its gob form, into any
    receiver and without error.  The JSON form of the empty currency is
    accepted too, but it leaves the receiver as it was. *)
Theorem Currency_serialisation_round_trips
        (ToUpper TrimSpace : gostring -> gostring)
        (ParseISO : gostring -> option gostring)
        (reg : registry) (c0 c : Currency) :
  c <> nullCurrency ->
  ParseCurrency ToUpper TrimSpace ParseISO reg c = (c, None) ->
  CurrencyUnmarshalJSON ToUpper TrimSpace ParseISO reg c0
    (fst (CurrencyMarshalJSON c)) = (c, None)
  /\ CurrencyGobDecode ToUpper TrimSpace ParseISO reg c0
       (fst (CurrencyGobEncode c)) = (c, None)
  /\ CurrencyUnmarshalJSON ToUpper TrimSpace ParseISO reg c0
       (fst (CurrencyMarshalJSON nullCurrency)) = (c0, None).
Proof.
  intros Hne Hp. split; [|split].
  - unfold CurrencyMarshalJSON. cbn [fst].
    rewrite CurrencyUnmarshalJSON_quoted by exact Hne.
    rewrite Hp. reflexivity.
  - unfold CurrencyGobEncode, CurrencyGobDecode. cbn [fst].
    rewrite Hp. reflexivity.
  - reflexivity.
Qed.

Lemma Currency_serialisation_round_trips_witness :
  CurrencyUnmarshalJSON asciiToUpper asciiTrimSpace someISO [] (str "EUR")
    (fst (CurrencyMarshalJSON (str "CHF"))) = (str "CHF", None)
  /\ CurrencyGobDecode asciiToUpper asciiTrimSpace someISO [] (str "EUR")
       (fst (CurrencyGobEncode (str "CHF"))) = (str "CHF", None)
  /\ CurrencyUnmarshalJSON asciiToUpper asciiTrimSpace someISO [] (str "EUR")
       (fst (CurrencyMarshalJSON nullCurrency)) = (str "EUR", None).
Proof.
  apply (Currency_serialisation_round_trips asciiToUpper asciiTrimSpace
           someISO [] (str "EUR") (str "CHF")).
  - discriminate.
  - reflexivity.
Defined.
